(** * SGRAF (similarity graph reasoning and attention filtration)

    A shallow embedding of [paddlemm/models/sgraf.py].  Tensors are nested
    lists of real numbers: the framework's float tensors are read with exact
    real arithmetic (the sigmoid apart, whose float32 rounding is kept), a
    rank-1 tensor is a [vec], a rank-2 tensor a [mat]
    (list of rows) and a rank-3 tensor a [tensor3] (list of matrices, the
    batch axis first).  The framework kernels are total functions here; on
    ill-shaped operands (where the framework raises) they truncate, so a
    statement that a run returns is made on well-shaped inputs and layers
    only, and carries these shapes as hypotheses. *)

From Stdlib Require Import String Ascii Decimal DecimalString DecimalNat.
From Stdlib Require Import Reals Lra Lia Arith ZArith Bool List.
Import ListNotations.
Open Scope R_scope.

(** ** Tensors as nested lists *)

Abbreviation vec := (list R) (only parsing).
Abbreviation mat := (list (list R)) (only parsing).
Abbreviation tensor3 := (list (list (list R))) (only parsing).

Fixpoint map2 {A B C : Type} (f : A -> B -> C) (xs : list A) (ys : list B) : list C :=
  match xs, ys with
  | x :: xs', y :: ys' => f x y :: map2 f xs' ys'
  | _, _ => []
  end.

Definition Rsum (v : vec) : R := fold_right Rplus 0 v.

Definition dot (u v : vec) : R := Rsum (map2 Rmult u v).

Definition scale (a : R) (v : vec) : vec := map (Rmult a) v.

Definition vadd (u v : vec) : vec := map2 Rplus u v.

(** [x.shape[1]] of a rank-2 tensor (and of each matrix of a batch). *)
Definition ncols {A : Type} (m : list (list A)) : nat := length (hd [] m).

(** [paddle.transpose] of a matrix, and with [perm = (0, 2, 1)] on a batch. *)
Definition transpose (m : mat) : mat :=
  map (fun j => map (fun row => nth j row 0) m) (seq 0 (ncols m)).

Definition transpose021 (t : tensor3) : tensor3 := map transpose t.

(** [paddle.bmm] / [paddle.matmul] on one pair of matrices and on a batch. *)
Definition matmul (a b : mat) : mat :=
  map (fun row => map (dot row) (transpose b)) a.

Definition bmm (a b : tensor3) : tensor3 := map2 matmul a b.

(** Arithmetic mean and (biased) variance of a list of values. *)
Definition mean (v : vec) : R := Rsum v / INR (length v).

Definition variance (v : vec) : R := mean (map (fun x => (x - mean v) ^ 2) v).

(** [x.sum(axis=1)] and [paddle.mean(x, 1)] on one matrix of a batch: the
    rows are added up (averaged) column by column. *)
Definition sum_rows (m : mat) : vec := map Rsum (transpose m).

Definition mean_rows (m : mat) : vec := map mean (transpose m).

(** [paddle.concat(ts, 1)]: the tensors of [ts] are glued along axis 1. *)
Definition concat1 {A : Type} (ts : list (list (list A))) : list (list A) :=
  match ts with
  | [] => []
  | t :: rest => fold_left (map2 (@app A)) rest t
  end.

(** [x.unsqueeze(1)] of a rank-2 tensor. *)
Definition unsqueeze1 {A : Type} (m : list A) : list (list A) := map (fun v => [v]) m.

(** [f(i, x_i)] over a list, the index first. *)
Definition mapi {A B : Type} (f : nat -> A -> B) (xs : list A) : list B :=
  map2 f (seq 0 (length xs)) xs.

(** ** Activations *)

(** The float32 result of a kernel whose exact value is [x]: the binary32
    number nearest to [x] (24 significant bits, least exponent -126, ties
    to even; overflow is not modelled).  Only the sigmoid is read this way,
    because its saturation at 0 and 1 is observable; the other kernels are
    read over exact reals. *)
Definition Zfloor (x : R) : Z := (up x - 1)%Z.

Definition Znearest_even (x : R) : Z :=
  let f := Zfloor x in
  if Rlt_dec (x - IZR f) (1 / 2) then f
  else if Rlt_dec (1 / 2) (x - IZR f) then (f + 1)%Z
  else if Z.even f then f else (f + 1)%Z.

Definition f32_exponent (x : R) : Z := Z.max (Zfloor (ln (Rabs x) / ln 2)) (-126).

Definition f32_ulp (x : R) : R := powerRZ 2 (f32_exponent x - 23).

Definition fl32 (x : R) : R := IZR (Znearest_even (x / f32_ulp x)) * f32_ulp x.

Definition exact_sigmoid (x : R) : R := 1 / (1 + exp (- x)).

Definition sigmoid (x : R) : R := fl32 (exact_sigmoid x).

Definition relu (x : R) : R := Rmax 0 x.

Definition leaky_relu (slope x : R) : R := Rmax 0 x + slope * Rmin 0 x.

Definition softmax (v : vec) : vec :=
  map (fun x => exp x / Rsum (map exp v)) v.

(** Euclidean norm of a vector. *)
Definition norm2 (v : vec) : R := sqrt (Rsum (map (fun x => x * x) v)).

(** The convex-combination reading used by the attention claims:
    [weighted_sum w rows] is the vector [w_0 * rows_0 + w_1 * rows_1 + ...]. *)
Definition weighted_sum (w : vec) (rows : mat) : vec :=
  fold_right vadd (repeat 0 (ncols rows)) (map2 scale w rows).

(** A matrix whose rows all have width [d]. *)
Definition rect (d : nat) (m : mat) : Prop := Forall (fun r => length r = d) m.

(** ** Exceptions and the framework's random source

    Dropout draws a keep/drop bit for every element it sees; the bits come
    from a tape that every stochastic layer advances.  A computation of the
    model either raises or returns a value and the advanced tape. *)

Inductive exn : Type :=
| ValueError (msg : string)
| KeyError (key : string)
| AttributeError (attr : string).

Record RNG : Type := { tape : nat -> bool; pos : nat }.

Definition M (A : Type) : Type := RNG -> exn + (A * RNG).

Definition ret {A : Type} (a : A) : M A := fun g => inr (a, g).

Definition bind {A B : Type} (m : M A) (k : A -> M B) : M B :=
  fun g => match m g with
           | inl e => inl e
           | inr (a, g') => k a g'
           end.

Definition lift {A : Type} (r : exn + A) : M A :=
  fun g => match r with
           | inl e => inl e
           | inr a => inr (a, g)
           end.

Notation "x <- m ;; k" := (bind m (fun x => k))
  (at level 61, m at next level, right associativity).

Fixpoint mapM {A B : Type} (f : A -> M B) (xs : list A) : M (list B) :=
  match xs with
  | [] => ret []
  | x :: xs' => y <- f x ;; ys <- mapM f xs' ;; ret (y :: ys)
  end.

(** What a run gives back to its caller: the exception or the value. *)
Definition outcome {A : Type} (r : exn + (A * RNG)) : exn + A :=
  match r with
  | inl e => inl e
  | inr (a, _) => inr a
  end.

(** ** Layers of the framework *)

(** [nn.Linear(in_features, out_features)]: [weight] has [in_features]
    rows and [out_features] columns. *)
Record Linear : Type := { weight : mat; bias : vec }.

Definition Linear_forward (l : Linear) (x : vec) : vec :=
  vadd (map (dot x) (transpose (weight l))) (bias l).

Definition Linear2 (l : Linear) (m : mat) : mat := map (Linear_forward l) m.

Definition Linear3 (l : Linear) (t : tensor3) : tensor3 := map (Linear2 l) t.

(** [nn.BatchNorm1D(num_features)]: scale, shift and running statistics,
    one entry per channel. *)
Record BatchNorm1D : Type :=
  { bn_weight : vec; bn_bias : vec; bn_mean : vec; bn_variance : vec }.

Definition bn_epsilon : R := 1 / 100000.

Definition bn_apply (bn : BatchNorm1D) (c : nat) (stats : R * R) (x : R) : R :=
  (x - fst stats) / sqrt (snd stats + bn_epsilon) * nth c (bn_weight bn) 0
  + nth c (bn_bias bn) 0.

(** [nn.Sequential] with named sublayers, in insertion order. *)
Definition Sequential (L : Type) : Type := list (string * L).

Fixpoint add_sublayer {L : Type} (s : Sequential L) (name : string) (l : L) : Sequential L :=
  match s with
  | [] => [(name, l)]
  | (n, l') :: s' =>
      if String.eqb n name then (n, l) :: s' else (n, l') :: add_sublayer s' name l
  end.

Fixpoint get_sublayer {L : Type} (s : Sequential L) (name : string) : exn + L :=
  match s with
  | [] => inl (KeyError name)
  | (n, l) :: s' => if String.eqb n name then inr l else get_sublayer s' name
  end.

(** The f-string [f'SGR_{i}']. *)
Definition sgr_name (i : nat) : string :=
  ("SGR_" ++ NilEmpty.string_of_uint (Nat.to_uint i))%string.

(** [a - b] where [b] has one row, broadcast over the rows of [a]. *)
Definition subtract_bcast (a b : mat) : mat :=
  map (fun row => map2 Rminus row (hd [] b)) a.

Definition subtract3 (a b : tensor3) : tensor3 := map2 (map2 (map2 Rminus)) a b.

Definition pow2 (v : vec) : vec := map (fun x => x ^ 2) v.

Section SGRAF.

(** The guard of the normalisation helpers, the layers' [training] flag, the
    framework's parameter initializer (entry [(i, j)] of the parameter of a
    given name), its GRU layer and the contrastive loss of
    [layers/contrastive.py], none of which is part of [sgraf.py]. *)
Variable eps : R.
Hypothesis eps_pos : 0 < eps.
Variable training : bool.
Variable initializer : string -> nat -> nat -> R.
Variable nn_GRU : nat -> nat -> nat -> string -> tensor3 -> list nat -> tensor3.
Variable ContrastiveLoss : R -> bool -> mat -> R.

(** Modelled from the spec: [l2norm] of [layers/normalize.py] is not in the
    sources; "L2 normalization ... up to the eps guard" is read as division
    of a vector by its Euclidean norm plus the guard [eps]. *)
Definition l2norm (x : vec) : vec := map (fun v => v / (norm2 x + eps)) x.

(** Modelled from the spec: [l1norm] of [layers/normalize.py] is not in the
    sources; it is read as division of a vector by the sum of its absolute
    values plus the guard [eps]. *)
Definition l1norm (x : vec) : vec := map (fun v => v / (Rsum (map Rabs x) + eps)) x.

Definition Linear_init (name : string) (in_features out_features : nat) : Linear :=
  {| weight := map (fun i => map (fun j => initializer (name ++ ".weight") i j)
                               (seq 0 out_features)) (seq 0 in_features);
     bias := map (fun j => initializer (name ++ ".bias") 0%nat j) (seq 0 out_features) |}.

Definition BatchNorm1D_init (num_features : nat) : BatchNorm1D :=
  {| bn_weight := repeat 1 num_features; bn_bias := repeat 0 num_features;
     bn_mean := repeat 0 num_features; bn_variance := repeat 1 num_features |}.

(** Statistics of channel [c]: of the batch when training, the running ones
    otherwise.  [vals] are the values of the channel in the batch. *)
Definition bn_stats (bn : BatchNorm1D) (c : nat) (vals : vec) : R * R :=
  if training then (mean vals, variance vals)
  else (nth c (bn_mean bn) 0, nth c (bn_variance bn) 0).

(** Input of shape (N, C): the channel is the last axis. *)
Definition BatchNorm1D_forward2 (bn : BatchNorm1D) (x : mat) : mat :=
  map (mapi (fun c v =>
               bn_apply bn c (bn_stats bn c (map (fun row => nth c row 0) x)) v)) x.

(** Input of shape (N, C, L): the channel is axis 1. *)
Definition BatchNorm1D_forward3 (bn : BatchNorm1D) (x : tensor3) : tensor3 :=
  map (mapi (fun c row =>
               map (bn_apply bn c (bn_stats bn c (flat_map (fun s => nth c s []) x))) row)) x.

(** [nn.Dropout(p)]: the identity in evaluation mode; when training each
    element is kept and scaled by [1 / (1 - p)], or zeroed, as the tape says. *)
Definition Dropout_vec (p : R) (x : vec) : M vec :=
  if training then
    fun g => inr (map2 (fun keep v => if keep : bool then v / (1 - p) else 0)
                       (map (tape g) (seq (pos g) (length x))) x,
                  {| tape := tape g; pos := pos g + length x |})
  else ret x.

Definition Dropout2 (p : R) (x : mat) : M mat := mapM (Dropout_vec p) x.

Definition Dropout3 (p : R) (x : tensor3) : M tensor3 := mapM (Dropout2 p) x.

(** ** [EncoderImage] *)

Record EncoderImage : Type :=
  { ei_embed_size : nat; ei_img_dim : nat; ei_image_norm : bool; ei_fc : Linear }.

Definition EncoderImage_init (name : string) (img_dim embed_size : nat) (image_norm : bool)
  : EncoderImage :=
  {| ei_embed_size := embed_size; ei_img_dim := img_dim; ei_image_norm := image_norm;
     ei_fc := Linear_init (name ++ ".fc") img_dim embed_size |}.

Definition EncoderImage_forward (self : EncoderImage) (images : tensor3) : M tensor3 :=
  let img_emb := Linear3 (ei_fc self) images in
  let img_emb := if ei_image_norm self then map (map l2norm) img_emb else img_emb in
  ret img_emb.

(** ** [EncoderText] *)

Record EncoderText : Type :=
  { et_embed_size : nat; et_image_norm : bool; et_embed : mat;
    et_use_bi_gru : string; et_cap_rnn : tensor3 -> list nat -> tensor3 }.

Definition EncoderText_init (name : string) (vocab_size word_dim embed_size num_layers : nat)
    (use_bi_gru image_norm : bool) : EncoderText :=
  let direction := (if use_bi_gru then "bidirectional" else "forward")%string in
  {| et_embed_size := embed_size; et_image_norm := image_norm;
     et_embed := map (fun i => map (fun j => initializer (name ++ ".embed.weight") i j)
                                   (seq 0 word_dim)) (seq 0 vocab_size);
     et_use_bi_gru := direction;
     et_cap_rnn := nn_GRU word_dim embed_size num_layers direction |}.

(** [(out[:, :, :h] + out[:, :, h:]) / 2] with [h = int(out.shape[2] / 2)]. *)
Definition average_halves (out : tensor3) : tensor3 :=
  let h := Nat.div (ncols (hd [] out)) 2 in
  map (map (fun w => map (fun x => x / 2) (vadd (firstn h w) (skipn h w)))) out.

Definition EncoderText_forward (self : EncoderText) (captions : list (list nat))
    (lengths : list nat) : M tensor3 :=
  let cap_emb := map (map (fun id => nth id (et_embed self) [])) captions in
  cap_emb <- Dropout3 (4 / 10) cap_emb ;;
  let out := et_cap_rnn self cap_emb lengths in
  let out := if String.eqb (et_use_bi_gru self) "bidirectional"
             then average_halves out else out in
  let out := if et_image_norm self then map (map l2norm) out else out in
  ret out.

(** ** [VisualSA] and [TextSA] *)

Record VisualSA : Type :=
  { vsa_local_fc : Linear; vsa_local_bn : BatchNorm1D;
    vsa_global_fc : Linear; vsa_global_bn : BatchNorm1D;
    vsa_common : Linear; vsa_dropout_rate : R }.

Definition VisualSA_init (name : string) (embed_dim : nat) (dropout_rate : R) (num_region : nat)
  : VisualSA :=
  {| vsa_local_fc := Linear_init (name ++ ".embedding_local.0") embed_dim embed_dim;
     vsa_local_bn := BatchNorm1D_init num_region;
     vsa_global_fc := Linear_init (name ++ ".embedding_global.0") embed_dim embed_dim;
     vsa_global_bn := BatchNorm1D_init embed_dim;
     vsa_common := Linear_init (name ++ ".embedding_common.0") embed_dim 1;
     vsa_dropout_rate := dropout_rate |}.

(** The shared tail of the two self-attention layers (lines 98-101 and
    134-138): the global embedding is repeated for every local position,
    multiplied into the local embedding, scored and soft-maxed per sample. *)
Definition SA_weights (common_w : Linear) (l_emb : tensor3) (g_emb : mat) : mat :=
  let g_emb := map (fun g => repeat g (ncols l_emb)) g_emb in
  let common := map2 (map2 (map2 Rmult)) l_emb g_emb in
  let weights := map (map (fun v => nth 0 v 0)) (Linear3 common_w common) in
  map softmax weights.

(** [(weights.unsqueeze(2) * local).sum(axis=1)] followed by [l2norm]. *)
Definition SA_pool (weights : mat) (local : tensor3) : mat :=
  let new_global := map2 (fun w l => sum_rows (map2 scale w l)) weights local in
  map l2norm new_global.

Definition VisualSA_weights (self : VisualSA) (local : tensor3) (raw_global : mat) : M mat :=
  l_emb <- Dropout3 (vsa_dropout_rate self)
             (map (map (map tanh))
                (BatchNorm1D_forward3 (vsa_local_bn self) (Linear3 (vsa_local_fc self) local))) ;;
  g_emb <- Dropout2 (vsa_dropout_rate self)
             (map (map tanh)
                (BatchNorm1D_forward2 (vsa_global_bn self) (Linear2 (vsa_global_fc self) raw_global))) ;;
  ret (SA_weights (vsa_common self) l_emb g_emb).

Definition VisualSA_forward (self : VisualSA) (local : tensor3) (raw_global : mat) : M mat :=
  weights <- VisualSA_weights self local raw_global ;;
  ret (SA_pool weights local).

Record TextSA : Type :=
  { tsa_local_fc : Linear; tsa_global_fc : Linear; tsa_common : Linear; tsa_dropout_rate : R }.

Definition TextSA_init (name : string) (embed_dim : nat) (dropout_rate : R) : TextSA :=
  {| tsa_local_fc := Linear_init (name ++ ".embedding_local.0") embed_dim embed_dim;
     tsa_global_fc := Linear_init (name ++ ".embedding_global.0") embed_dim embed_dim;
     tsa_common := Linear_init (name ++ ".embedding_common.0") embed_dim 1;
     tsa_dropout_rate := dropout_rate |}.

Definition TextSA_weights (self : TextSA) (local : tensor3) (raw_global : mat) : M mat :=
  l_emb <- Dropout3 (tsa_dropout_rate self)
             (map (map (map tanh)) (Linear3 (tsa_local_fc self) local)) ;;
  g_emb <- Dropout2 (tsa_dropout_rate self)
             (map (map tanh) (Linear2 (tsa_global_fc self) raw_global)) ;;
  ret (SA_weights (tsa_common self) l_emb g_emb).

Definition TextSA_forward (self : TextSA) (local : tensor3) (raw_global : mat) : M mat :=
  weights <- TextSA_weights self local raw_global ;;
  ret (SA_pool weights local).

(** ** [GraphReasoning] *)

Record GraphReasoning : Type :=
  { graph_query_w : Linear; graph_key_w : Linear; sim_graph_w : Linear }.

Definition GraphReasoning_init (name : string) (sim_dim : nat) : GraphReasoning :=
  {| graph_query_w := Linear_init (name ++ ".graph_query_w") sim_dim sim_dim;
     graph_key_w := Linear_init (name ++ ".graph_key_w") sim_dim sim_dim;
     sim_graph_w := Linear_init (name ++ ".sim_graph_w") sim_dim sim_dim |}.

(** Lines 163-165: the soft-maxed edge matrix of every graph of the batch. *)
Definition GraphReasoning_edge (self : GraphReasoning) (sim_emb : tensor3) : tensor3 :=
  let sim_query := Linear3 (graph_query_w self) sim_emb in
  let sim_key := Linear3 (graph_key_w self) sim_emb in
  map (map softmax) (bmm sim_query (transpose021 sim_key)).

(** Line 166: the propagated nodes, before the output layer. *)
Definition GraphReasoning_propagate (self : GraphReasoning) (sim_emb : tensor3) : tensor3 :=
  bmm (GraphReasoning_edge self sim_emb) sim_emb.

Definition GraphReasoning_forward (self : GraphReasoning) (sim_emb : tensor3) : tensor3 :=
  let sim_sgr := GraphReasoning_propagate self sim_emb in
  map (map (fun node => map relu (Linear_forward (sim_graph_w self) node))) sim_sgr.

(** ** [AttentionFiltration] *)

Record AttentionFiltration : Type := { attn_sim_w : Linear; saf_bn : BatchNorm1D }.

Definition AttentionFiltration_init (name : string) (sim_dim : nat) : AttentionFiltration :=
  {| attn_sim_w := Linear_init (name ++ ".attn_sim_w") sim_dim 1;
     saf_bn := BatchNorm1D_init 1 |}.

Definition AttentionFiltration_forward (self : AttentionFiltration) (sim_emb : tensor3) : mat :=
  let sim_attn := Linear3 (attn_sim_w self) sim_emb in
  let sim_attn := transpose021 sim_attn in
  let sim_attn := map (map (fun row => l1norm (map sigmoid row)))
                      (BatchNorm1D_forward3 (saf_bn self) sim_attn) in
  let sim_saf := bmm sim_attn sim_emb in
  map (fun m => l2norm (hd [] m)) sim_saf.

(** ** [SCAN_attention] *)

(** Lines 279-291 on one (query, context) pair of the batch: the attention
    weights, one row per query position, one column per source position. *)
Definition SCAN_weights1 (query context : mat) (smooth : R) : mat :=
  let queryT := transpose query in
  let attn := matmul context queryT in
  let attn := map (map (leaky_relu (1 / 10))) attn in
  let attn := map l2norm attn in
  let attn := transpose attn in
  map (fun row => softmax (map (fun x => x * smooth) row)) attn.

(** Lines 294-302: the weighted context before the final normalisation. *)
Definition SCAN_context1 (query context : mat) (smooth : R) : mat :=
  let attnT := transpose (SCAN_weights1 query context smooth) in
  let contextT := transpose context in
  transpose (matmul contextT attnT).

Definition SCAN_attention1 (query context : mat) (smooth : R) : mat :=
  map l2norm (SCAN_context1 query context smooth).

Definition SCAN_weights (query context : tensor3) (smooth : R) : tensor3 :=
  map2 (fun q c => SCAN_weights1 q c smooth) query context.

(** The parameter [eps] of the source function is never read. *)
Definition SCAN_attention (query context : tensor3) (smooth : R) (eps' : R) : tensor3 :=
  map2 (fun q c => SCAN_attention1 q c smooth) query context.

(** ** [EncoderSimilarity] *)

(** The attribute that [__init__] sets besides the common ones:
    [SGR_module] or [SAF_module]. *)
Inductive SimModule : Type :=
| SGR_module (layers : Sequential GraphReasoning)
| SAF_module (layer : AttentionFiltration).

Record EncoderSimilarity : Type :=
  { module_name : string;
    v_global_w : VisualSA; t_global_w : TextSA;
    sim_tranloc_w : Linear; sim_tranglo_w : Linear; sim_eval_w : Linear;
    sim_module : SimModule }.

(** The defaults of the signature of [__init__]. *)
Definition default_module_name : string := "AVE".
Definition default_sgr_step : nat := 3.

Definition EncoderSimilarity_init (name : string) (embed_size sim_dim : nat)
    (module_name : string) (sgr_step : nat) : exn + EncoderSimilarity :=
  let make := fun module =>
    {| module_name := module_name;
       v_global_w := VisualSA_init (name ++ ".v_global_w") embed_size (4 / 10) 36;
       t_global_w := TextSA_init (name ++ ".t_global_w") embed_size (4 / 10);
       sim_tranloc_w := Linear_init (name ++ ".sim_tranloc_w") embed_size sim_dim;
       sim_tranglo_w := Linear_init (name ++ ".sim_tranglo_w") embed_size sim_dim;
       sim_eval_w := Linear_init (name ++ ".sim_eval_w") sim_dim 1;
       sim_module := module |} in
  if String.eqb module_name "SGR" then
    inr (make (SGR_module
                 (fold_left (fun s i =>
                               add_sublayer s (sgr_name i)
                                 (GraphReasoning_init (name ++ ".SGR_module." ++ sgr_name i) sim_dim))
                            (seq 0 sgr_step) [])))
  else if String.eqb module_name "SAF" then
    inr (make (SAF_module (AttentionFiltration_init (name ++ ".SAF_module") sim_dim)))
  else inl (ValueError "Invalid input of module_name").

(** Lines 257-258: the sublayers are fetched by name, [SGR_0], [SGR_1], ...,
    as many as the container holds.  (The loop variable shadows the caption
    index, which the rest of the body does not read.) *)
Definition SGR_reason (layers : Sequential GraphReasoning) (sim_emb : tensor3)
  : exn + tensor3 :=
  fold_left (fun acc i =>
               match acc with
               | inl e => inl e
               | inr emb =>
                   match get_sublayer layers (sgr_name i) with
                   | inl e => inl e
                   | inr l => inr (GraphReasoning_forward l emb)
                   end
               end)
            (seq 0 (length layers)) (inr sim_emb).

(** Lines 256-261: the final similarity vector of every image. *)
Definition final_sim_vec (self : EncoderSimilarity) (sim_emb : tensor3) : exn + mat :=
  if String.eqb (module_name self) "SGR" then
    match sim_module self with
    | SGR_module layers =>
        match SGR_reason layers sim_emb with
        | inl e => inl e
        | inr sim_emb => inr (map (fun g => nth 0 g []) sim_emb)
        end
    | SAF_module _ => inl (AttributeError "SGR_module")
    end
  else
    match sim_module self with
    | SAF_module layer => inr (AttentionFiltration_forward layer sim_emb)
    | SGR_module _ => inl (AttributeError "SAF_module")
    end.

(** Lines 236-253: the global and local alignments of caption [i] with
    every image, as the nodes of one graph per image. *)
Definition caption_sim_emb (self : EncoderSimilarity) (img_emb : tensor3) (img_glo : mat)
    (cap_emb : tensor3) (cap_lens : list nat) (i : nat) : M tensor3 :=
  let n_image := length img_emb in
  let n_word := nth i cap_lens 0%nat in
  let cap_i := [firstn n_word (nth i cap_emb [])] in
  let cap_i_expand := concat (repeat cap_i n_image) in
  let cap_ave_i := map mean_rows cap_i in
  cap_glo_i <- TextSA_forward (t_global_w self) cap_i cap_ave_i ;;
  let Context_img := SCAN_attention cap_i_expand img_emb 9 (1 / 100000000) in
  let sim_loc := map (map pow2) (subtract3 Context_img cap_i_expand) in
  let sim_loc := map (map l2norm) (Linear3 (sim_tranloc_w self) sim_loc) in
  let sim_glo := map pow2 (subtract_bcast img_glo cap_glo_i) in
  let sim_glo := map l2norm (Linear2 (sim_tranglo_w self) sim_glo) in
  ret (concat1 [unsqueeze1 sim_glo; sim_loc]).

(** Lines 255-261: the final similarity vector of caption [i] with every image. *)
Definition caption_sim_vec (self : EncoderSimilarity) (img_emb : tensor3) (img_glo : mat)
    (cap_emb : tensor3) (cap_lens : list nat) (i : nat) : M mat :=
  sim_emb <- caption_sim_emb self img_emb img_glo cap_emb cap_lens i ;;
  lift (final_sim_vec self sim_emb).

(** Lines 263-265: one column of the similarity matrix. *)
Definition caption_sim (self : EncoderSimilarity) (img_emb : tensor3) (img_glo : mat)
    (cap_emb : tensor3) (cap_lens : list nat) (i : nat) : M mat :=
  sim_vec <- caption_sim_vec self img_emb img_glo cap_emb cap_lens i ;;
  ret (map (map sigmoid) (Linear2 (sim_eval_w self) sim_vec)).

Definition EncoderSimilarity_forward (self : EncoderSimilarity) (img_emb cap_emb : tensor3)
    (cap_lens : list nat) : M mat :=
  let n_caption := length cap_emb in
  let img_ave := map mean_rows img_emb in
  img_glo <- VisualSA_forward (v_global_w self) img_emb img_ave ;;
  sim_all <- mapM (caption_sim self img_emb img_glo cap_emb cap_lens) (seq 0 n_caption) ;;
  ret (concat1 sim_all).

(** ** [SGRAF] *)

Record SGRAF_model : Type :=
  { img_enc : EncoderImage; txt_enc : EncoderText; sim_enc : EncoderSimilarity;
    criterion : mat -> R }.

Definition SGRAF_init (module_name : string) (sgr_step embed_size sim_dim vocab_size
    word_dim num_layers image_dim : nat) (margin : R) (max_violation : bool)
    (use_bi_gru image_norm text_norm : bool) : exn + SGRAF_model :=
  let img_enc := EncoderImage_init "img_enc" image_dim embed_size image_norm in
  let txt_enc := EncoderText_init "txt_enc" vocab_size word_dim embed_size num_layers
                   use_bi_gru text_norm in
  match EncoderSimilarity_init "sim_enc" embed_size sim_dim module_name sgr_step with
  | inl e => inl e
  | inr sim_enc =>
      inr {| img_enc := img_enc; txt_enc := txt_enc; sim_enc := sim_enc;
             criterion := ContrastiveLoss margin max_violation |}
  end.

(** The batch dictionary with its three keys. *)
Record Batch : Type :=
  { image_feat : tensor3; text_token : list (list nat); text_len : list nat }.

Definition forward_emb (self : SGRAF_model) (batch : Batch)
  : M (tensor3 * tensor3 * list nat) :=
  let images := image_feat batch in
  let captions := text_token batch in
  let lengths := text_len batch in
  img_embs <- EncoderImage_forward (img_enc self) images ;;
  cap_embs <- EncoderText_forward (txt_enc self) captions lengths ;;
  ret (img_embs, cap_embs, lengths).

Definition forward_sim (self : SGRAF_model) (batch : tensor3 * tensor3 * list nat) : M mat :=
  let '(img_embs, cap_embs, cap_lens) := batch in
  sims <- EncoderSimilarity_forward (sim_enc self) img_embs cap_embs cap_lens ;;
  ret sims.

Definition SGRAF_forward (self : SGRAF_model) (batch : Batch) : M R :=
  let images := image_feat batch in
  let captions := text_token batch in
  let lengths := text_len batch in
  img_embs <- EncoderImage_forward (img_enc self) images ;;
  cap_embs <- EncoderText_forward (txt_enc self) captions lengths ;;
  sims <- EncoderSimilarity_forward (sim_enc self) img_embs cap_embs lengths ;;
  let loss := criterion self sims in
  ret loss.

(** The staged pipeline [criterion(forward_sim(forward_emb(batch)))]. *)
Definition SGRAF_staged (self : SGRAF_model) (batch : Batch) : M R :=
  e <- forward_emb self batch ;;
  sims <- forward_sim self e ;;
  ret (criterion self sims).

(** ** Shapes *)

(** A linear layer from [n_in] to [n_out] features, as [nn.Linear] builds it. *)
Definition Linear_shape (n_in n_out : nat) (l : Linear) : Prop :=
  length (weight l) = n_in /\ rect n_out (weight l) /\ length (bias l) = n_out.

(** A batch of matrices whose rows all have width [d]. *)
Definition rect3 (d : nat) (t : tensor3) : Prop := Forall (rect d) t.

Definition GraphReasoning_shape (sim_dim : nat) (self : GraphReasoning) : Prop :=
  Linear_shape sim_dim sim_dim (graph_query_w self)
  /\ Linear_shape sim_dim sim_dim (graph_key_w self)
  /\ Linear_shape sim_dim sim_dim (sim_graph_w self).

(** A probability vector over [n] positions, and a matrix of such rows. *)
Definition prob_vector (n : nat) (w : vec) : Prop :=
  length w = n /\ Forall (fun x => 0 <= x) w /\ Rsum w = 1.

Definition row_stochastic (n : nat) (m : mat) : Prop := Forall (prob_vector n) m.

(** Lines 163-165 on one graph of the batch. *)
Definition edge1 (self : GraphReasoning) (g : mat) : mat :=
  map softmax (matmul (Linear2 (graph_query_w self) g)
                      (transpose (Linear2 (graph_key_w self) g))).


(** The sublayers of [SGR_module] are named [SGR_0], [SGR_1], ... in order. *)
Definition SGR_named (layers : Sequential GraphReasoning) : Prop :=
  map fst layers = map sgr_name (seq 0 (length layers)).

(** What [EncoderSimilarity.__init__] establishes and training keeps: the
    scoring layer has one output, and the module attribute that
    [module_name] selects is the one that was set. *)
Definition EncoderSimilarity_wf (sim_dim : nat) (self : EncoderSimilarity) : Prop :=
  Linear_shape sim_dim 1 (sim_eval_w self)
  /\ match sim_module self with
     | SGR_module layers => module_name self = "SGR"%string /\ SGR_named layers
     | SAF_module _ => module_name self <> "SGR"%string
     end.

(** The documented output shape of [nn.GRU]: batch and time axes as the
    input, features [num_directions * hidden_size]. *)
Definition num_directions (direction : string) : nat :=
  if String.eqb direction "bidirectional" then 2 else 1.

Definition GRU_contract : Prop :=
  forall input_size hidden_size num_layers direction (x : tensor3) (lens : list nat),
    Forall2 (fun xi oi => length oi = length xi
                          /\ rect (num_directions direction * hidden_size) oi)
            x (nn_GRU input_size hidden_size num_layers direction x lens).

(** A computation that neither reads nor advances the tape. *)
Definition tape_free {A : Type} (m : M A) : Prop :=
  exists r : exn + A, forall g, m g = lift r g.

(** ** Well-shaped inputs and layers

    The shapes on which the framework kernels run without raising: a
    rank-3 tensor of [n] matrices of [r] rows of width [d], and layers
    whose parameters have the shapes their constructors give them. *)

Definition tensor_shape (n r d : nat) (t : tensor3) : Prop :=
  length t = n /\ Forall (fun m => length m = r /\ rect d m) t.

Definition BatchNorm1D_shape (num_features : nat) (bn : BatchNorm1D) : Prop :=
  length (bn_weight bn) = num_features /\ length (bn_bias bn) = num_features
  /\ length (bn_mean bn) = num_features /\ length (bn_variance bn) = num_features
  /\ Forall (fun v => 0 <= v) (bn_variance bn).

Definition VisualSA_shape (embed_dim num_region : nat) (self : VisualSA) : Prop :=
  Linear_shape embed_dim embed_dim (vsa_local_fc self)
  /\ BatchNorm1D_shape num_region (vsa_local_bn self)
  /\ Linear_shape embed_dim embed_dim (vsa_global_fc self)
  /\ BatchNorm1D_shape embed_dim (vsa_global_bn self)
  /\ Linear_shape embed_dim 1 (vsa_common self)
  /\ 0 <= vsa_dropout_rate self < 1.

Definition TextSA_shape (embed_dim : nat) (self : TextSA) : Prop :=
  Linear_shape embed_dim embed_dim (tsa_local_fc self)
  /\ Linear_shape embed_dim embed_dim (tsa_global_fc self)
  /\ Linear_shape embed_dim 1 (tsa_common self)
  /\ 0 <= tsa_dropout_rate self < 1.

Definition AttentionFiltration_shape (sim_dim : nat) (self : AttentionFiltration) : Prop :=
  Linear_shape sim_dim 1 (attn_sim_w self) /\ BatchNorm1D_shape 1 (saf_bn self).

Definition EncoderSimilarity_shape (embed_size sim_dim num_region : nat)
    (self : EncoderSimilarity) : Prop :=
  VisualSA_shape embed_size num_region (v_global_w self)
  /\ TextSA_shape embed_size (t_global_w self)
  /\ Linear_shape embed_size sim_dim (sim_tranloc_w self)
  /\ Linear_shape embed_size sim_dim (sim_tranglo_w self)
  /\ EncoderSimilarity_wf sim_dim self
  /\ match sim_module self with
     | SGR_module layers => Forall (GraphReasoning_shape sim_dim) (map snd layers)
     | SAF_module layer => AttentionFiltration_shape sim_dim layer
     end.

(** A batch for [EncoderSimilarity.forward]: [n_image >= 1] images of
    [num_region] regions, [n_caption >= 1] captions padded to [max_len]
    words, one valid length per caption, features of width [embed_size]. *)
Definition similarity_batch (embed_size num_region n_image n_caption max_len : nat)
    (img_emb cap_emb : tensor3) (cap_lens : list nat) : Prop :=
  (1 <= embed_size)%nat /\ (1 <= num_region)%nat /\ (1 <= n_image)%nat
  /\ (1 <= n_caption)%nat /\ (1 <= max_len)%nat
  /\ tensor_shape n_image num_region embed_size img_emb
  /\ tensor_shape n_caption max_len embed_size cap_emb
  /\ length cap_lens = n_caption
  /\ Forall (fun n_word => (1 <= n_word <= max_len)%nat) cap_lens.

(** Lines 236-237: the valid words of caption [i]. *)
Definition caption_words (cap_emb : tensor3) (cap_lens : list nat) (i : nat) : mat :=
  firstn (nth i cap_lens 0%nat) (nth i cap_emb []).

(** Lines 249-250 and 245-247: the global alignment of every image with a
    caption, and its local alignments, one per word of the caption. *)
Definition global_alignment (self : EncoderSimilarity) (img_glo cap_glo_i : mat) : mat :=
  let sim_glo := map pow2 (subtract_bcast img_glo cap_glo_i) in
  map l2norm (Linear2 (sim_tranglo_w self) sim_glo).

Definition local_alignment (self : EncoderSimilarity) (img_emb : tensor3) (cap_i : mat)
  : tensor3 :=
  let cap_i_expand := concat (repeat [cap_i] (length img_emb)) in
  let Context_img := SCAN_attention cap_i_expand img_emb 9 (1 / 100000000) in
  let sim_loc := map (map pow2) (subtract3 Context_img cap_i_expand) in
  map (map l2norm) (Linear3 (sim_tranloc_w self) sim_loc).

(** A batch for [EncoderText.forward]: [n_caption >= 1] rows of [max_len >= 1]
    word ids below [vocab_size], and one valid length per caption. *)
Definition token_batch (vocab_size n_caption max_len : nat)
    (captions : list (list nat)) (lengths : list nat) : Prop :=
  (1 <= n_caption)%nat /\ (1 <= max_len)%nat
  /\ length captions = n_caption
  /\ Forall (fun c => length c = max_len /\ Forall (fun id => (id < vocab_size)%nat) c) captions
  /\ length lengths = n_caption
  /\ Forall (fun len => (1 <= len <= max_len)%nat) lengths.

(** ** Dependence on a learned parameter

    [GraphReasoning.forward] with entry [k] of the bias of [sim_graph_w]
    set to [b] and every other parameter as in [self]; one entry of the
    returned tensor (graph [a], node [n], feature [k]); and the value of
    that feature before the bias is added and the ReLU applied. *)
Fixpoint set_nth {A : Type} (k : nat) (a : A) (l : list A) : list A :=
  match l, k with
  | [], _ => []
  | _ :: l', O => a :: l'
  | x :: l', S k' => x :: set_nth k' a l'
  end.

Definition with_output_bias (self : GraphReasoning) (k : nat) (b : R) : GraphReasoning :=
  {| graph_query_w := graph_query_w self; graph_key_w := graph_key_w self;
     sim_graph_w := {| weight := weight (sim_graph_w self);
                       bias := set_nth k b (bias (sim_graph_w self)) |} |}.

Definition GraphReasoning_entry (self : GraphReasoning) (sim_emb : tensor3) (a n k : nat) : R :=
  nth k (nth n (nth a (GraphReasoning_forward self sim_emb) []) []) 0.

Definition GraphReasoning_score (self : GraphReasoning) (sim_emb : tensor3) (a n k : nat) : R :=
  dot (nth n (nth a (GraphReasoning_propagate self sim_emb) []) [])
      (nth k (transpose (weight (sim_graph_w self))) []).

(** ** Small instances

    One-feature layers and one-element batches on which the statements
    below are exercised. *)

Definition ex_Linear : Linear := {| weight := [[1]]; bias := [0] |}.

Definition ex_BatchNorm1D : BatchNorm1D :=
  {| bn_weight := [1]; bn_bias := [0]; bn_mean := [0]; bn_variance := [1] |}.

Definition ex_GraphReasoning : GraphReasoning :=
  {| graph_query_w := ex_Linear; graph_key_w := ex_Linear; sim_graph_w := ex_Linear |}.

Definition ex_VisualSA : VisualSA :=
  {| vsa_local_fc := ex_Linear; vsa_local_bn := ex_BatchNorm1D;
     vsa_global_fc := ex_Linear; vsa_global_bn := ex_BatchNorm1D;
     vsa_common := ex_Linear; vsa_dropout_rate := 4 / 10 |}.

Definition ex_TextSA : TextSA :=
  {| tsa_local_fc := ex_Linear; tsa_global_fc := ex_Linear;
     tsa_common := ex_Linear; tsa_dropout_rate := 4 / 10 |}.

Definition ex_EncoderSimilarity : EncoderSimilarity :=
  {| module_name := "SAF";
     v_global_w := ex_VisualSA; t_global_w := ex_TextSA;
     sim_tranloc_w := ex_Linear; sim_tranglo_w := ex_Linear; sim_eval_w := ex_Linear;
     sim_module := SAF_module {| attn_sim_w := ex_Linear; saf_bn := ex_BatchNorm1D |} |}.

(** A stand-in for the framework's GRU that honours its output shape. *)
Definition ex_GRU (input_size hidden_size num_layers : nat) (direction : string)
    (x : tensor3) (lens : list nat) : tensor3 :=
  map (map (fun _ : list R => repeat 0 (num_directions direction * hidden_size))) x.

Definition ex_SGRAF : SGRAF_model :=
  {| img_enc := {| ei_embed_size := 1; ei_img_dim := 1; ei_image_norm := true;
                   ei_fc := ex_Linear |};
     txt_enc := {| et_embed_size := 1; et_image_norm := true; et_embed := [[1]];
                   et_use_bi_gru := "forward";
                   et_cap_rnn := ex_GRU 1 1 1 "forward" |};
     sim_enc := ex_EncoderSimilarity;
     criterion := fun sims => Rsum (map Rsum sims) |}.

Definition ex_Batch : Batch :=
  {| image_feat := [[[1]]]; text_token := [[0%nat]]; text_len := [1%nat] |}.

Definition ex_RNG : RNG := {| tape := fun _ => true; pos := 0 |}.

(** A batch in the documented layout: two images of 36 regions and two
    captions padded to two words, features of width 1; the region
    count that a visual self-attention over two regions expects; and an
    initializer whose scoring layer has weight 0 and bias 100. *)
Definition ex_img_emb : tensor3 := [repeat [1] 36; repeat [2] 36].

Definition ex_cap_emb : tensor3 := [[[1]; [2]]; [[3]; [4]]].

Definition ex_cap_lens : list nat := [2%nat; 1%nat].

Definition ex_Batch36 : Batch :=
  {| image_feat := ex_img_emb; text_token := [[0%nat; 1%nat]; [1%nat; 0%nat]];
     text_len := ex_cap_lens |}.

Definition ex_VisualSA2 : VisualSA :=
  {| vsa_local_fc := ex_Linear;
     vsa_local_bn := {| bn_weight := [1; 1]; bn_bias := [0; 0];
                        bn_mean := [0; 0]; bn_variance := [1; 1] |};
     vsa_global_fc := ex_Linear; vsa_global_bn := ex_BatchNorm1D;
     vsa_common := ex_Linear; vsa_dropout_rate := 4 / 10 |}.

Definition ex_VisualSA36 : VisualSA :=
  {| vsa_local_fc := ex_Linear;
     vsa_local_bn := {| bn_weight := repeat 1 36; bn_bias := repeat 0 36;
                        bn_mean := repeat 0 36; bn_variance := repeat 1 36 |};
     vsa_global_fc := ex_Linear; vsa_global_bn := ex_BatchNorm1D;
     vsa_common := ex_Linear; vsa_dropout_rate := 4 / 10 |}.

Definition ex_saturating_initializer (name : string) (i j : nat) : R :=
  if String.eqb name "sim_enc.sim_eval_w.bias" then 100 else 0.


(** Lines 185-187 of [AttentionFiltration.forward]: the gates, one row
    matrix per graph of the batch. *)
Definition AttentionFiltration_gates (self : AttentionFiltration) (sim_emb : tensor3)
  : tensor3 :=
  let sim_attn := Linear3 (attn_sim_w self) sim_emb in
  let sim_attn := transpose021 sim_attn in
  map (map (fun row => l1norm (map sigmoid row)))
      (BatchNorm1D_forward3 (saf_bn self) sim_attn).

(** An SGR model over 36 regions whose container holds one sublayer under
    another name than [SGR_0]. *)
Definition ex_EncoderSimilarity_misnamed : EncoderSimilarity :=
  {| module_name := "SGR";
     v_global_w := ex_VisualSA36; t_global_w := ex_TextSA;
     sim_tranloc_w := ex_Linear; sim_tranglo_w := ex_Linear; sim_eval_w := ex_Linear;
     sim_module := SGR_module [("reasoning"%string, ex_GraphReasoning)] |}.
(** ** Basic facts on lists and sums *)

Set Implicit Arguments.
Set Default Proof Using "Type".

Lemma map2_length {A B C} (f : A -> B -> C) xs ys :
  length (map2 f xs ys) = Nat.min (length xs) (length ys).
Proof.
  revert ys; induction xs as [|x xs IH]; intros [|y ys]; simpl; auto.
Qed.

Lemma map2_map_l {A A' B C} (f : A' -> B -> C) (g : A -> A') xs ys :
  map2 f (map g xs) ys = map2 (fun x y => f (g x) y) xs ys.
Proof.
  revert ys; induction xs as [|x xs IH]; intros [|y ys]; simpl; f_equal; auto.
Qed.

Lemma map2_map_r {A B B' C} (f : A -> B' -> C) (g : B -> B') xs ys :
  map2 f xs (map g ys) = map2 (fun x y => f x (g y)) xs ys.
Proof.
  revert ys; induction xs as [|x xs IH]; intros [|y ys]; simpl; f_equal; auto.
Qed.

Lemma map_map2 {A B C D} (g : C -> D) (f : A -> B -> C) xs ys :
  map g (map2 f xs ys) = map2 (fun x y => g (f x y)) xs ys.
Proof.
  revert ys; induction xs as [|x xs IH]; intros [|y ys]; simpl; f_equal; auto.
Qed.

Lemma map2_ext {A B C} (f g : A -> B -> C) xs ys :
  (forall x y, f x y = g x y) -> map2 f xs ys = map2 g xs ys.
Proof.
  intros H; revert ys; induction xs as [|x xs IH]; intros [|y ys]; simpl; f_equal; auto.
Qed.

Lemma map2_same {A C} (f : A -> A -> C) xs :
  map2 f xs xs = map (fun x => f x x) xs.
Proof. induction xs; simpl; f_equal; auto. Qed.

Lemma nth_map2 {A B C} (f : A -> B -> C) xs ys i da db dc :
  (i < length xs)%nat -> (i < length ys)%nat ->
  nth i (map2 f xs ys) dc = f (nth i xs da) (nth i ys db).
Proof.
  revert ys i; induction xs as [|x xs IH]; intros [|y ys] [|i]; simpl; intros; try lia; auto.
  apply IH; lia.
Qed.

Lemma nth_map_lt {A B} (f : A -> B) xs i da db :
  (i < length xs)%nat -> nth i (map f xs) db = f (nth i xs da).
Proof.
  revert i; induction xs as [|x xs IH]; intros [|i]; simpl; intros; try lia; auto.
  apply IH; lia.
Qed.

Lemma Rsum_app u v : Rsum (u ++ v) = Rsum u + Rsum v.
Proof. unfold Rsum; induction u; simpl; lra. Qed.

Lemma Rsum_scale a v : Rsum (map (Rmult a) v) = a * Rsum v.
Proof. unfold Rsum; induction v; simpl; try rewrite IHv; lra. Qed.

Lemma Rsum_div v c : Rsum (map (fun x => x / c) v) = Rsum v / c.
Proof. unfold Rsum, Rdiv; induction v; simpl; try rewrite IHv; lra. Qed.

Lemma Rsum_nonneg v : Forall (fun x => 0 <= x) v -> 0 <= Rsum v.
Proof. unfold Rsum; induction 1; simpl; lra. Qed.

Lemma Rsum_pos v : v <> [] -> Forall (fun x => 0 < x) v -> 0 < Rsum v.
Proof.
  intros Hne H; destruct H as [|x v Hx Hv]; [congruence|].
  simpl. assert (0 <= Rsum v) by (apply Rsum_nonneg; eapply Forall_impl; [|exact Hv]; simpl; intros; lra).
  unfold Rsum in *; lra.
Qed.

Lemma Rsum_squares_nonneg v : 0 <= Rsum (map (fun x => x * x) v).
Proof.
  apply Rsum_nonneg, Forall_forall; intros y Hy.
  apply in_map_iff in Hy as (x & <- & _). nra.
Qed.

Lemma norm2_nonneg v : 0 <= norm2 v.
Proof. apply sqrt_pos. Qed.

(** ** Activations: ranges *)

Lemma Zfloor_spec x : IZR (Zfloor x) <= x < IZR (Zfloor x) + 1.
Proof.
  unfold Zfloor. rewrite minus_IZR. destruct (archimed x) as [H1 H2]. lra.
Qed.

Lemma Zfloor_eq x n : IZR n <= x < IZR n + 1 -> Zfloor x = n.
Proof.
  intros [H1 H2]. destruct (Zfloor_spec x) as [H3 H4].
  assert (A : (Zfloor x < n + 1)%Z) by (apply lt_IZR; rewrite plus_IZR; lra).
  assert (B : (n < Zfloor x + 1)%Z) by (apply lt_IZR; rewrite plus_IZR; lra).
  lia.
Qed.

Lemma Znearest_even_cases x :
  Znearest_even x = Zfloor x \/ (Znearest_even x = (Zfloor x + 1)%Z /\ 1 / 2 <= x - IZR (Zfloor x)).
Proof.
  unfold Znearest_even. cbv zeta.
  destruct (Rlt_dec (x - IZR (Zfloor x)) (1 / 2)) as [H|H]; [now left|].
  destruct (Rlt_dec (1 / 2) (x - IZR (Zfloor x))) as [H'|H']; [right; split; [reflexivity | lra]|].
  destruct (Z.even (Zfloor x)); [now left | right; split; [reflexivity | lra]].
Qed.

Lemma Znearest_even_ge x n : IZR n <= x -> (n <= Znearest_even x)%Z.
Proof.
  intros H. destruct (Zfloor_spec x) as [H1 H2].
  assert (A : (n < Zfloor x + 1)%Z) by (apply lt_IZR; rewrite plus_IZR; lra).
  destruct (Znearest_even_cases x) as [E|[E _]]; rewrite E; lia.
Qed.

Lemma Znearest_even_le x n : x <= IZR n -> (Znearest_even x <= n)%Z.
Proof.
  intros H. destruct (Zfloor_spec x) as [H1 H2].
  destruct (Znearest_even_cases x) as [E|[E Hf]]; rewrite E.
  - apply le_IZR. lra.
  - assert (A : (Zfloor x < n)%Z) by (apply lt_IZR; lra). lia.
Qed.

Lemma Znearest_even_up x n :
  IZR n - 1 / 2 < x <= IZR n -> Znearest_even x = n.
Proof.
  intros [H1 H2]. unfold Znearest_even. cbv zeta.
  destruct (Req_dec x (IZR n)) as [->|Hne].
  - rewrite (@Zfloor_eq (IZR n) n) by lra.
    destruct (Rlt_dec (IZR n - IZR n) (1 / 2)) as [H|H]; [reflexivity | lra].
  - rewrite (@Zfloor_eq x (n - 1)) by (rewrite minus_IZR; lra).
    rewrite minus_IZR.
    destruct (Rlt_dec (x - (IZR n - 1)) (1 / 2)) as [H|H]; [lra|].
    destruct (Rlt_dec (1 / 2) (x - (IZR n - 1))) as [H'|H']; [lia | lra].
Qed.

Lemma f32_ulp_pos x : 0 < f32_ulp x.
Proof. apply powerRZ_lt. lra. Qed.

Lemma ln_2_pos : 0 < ln 2.
Proof. rewrite <- ln_1. apply ln_increasing; lra. Qed.

Lemma powerRZ_2_nonneg_IZR k : (0 <= k)%Z -> powerRZ 2 k = IZR (2 ^ k).
Proof.
  intros Hk. replace k with (Z.of_nat (Z.to_nat k)) by (apply Z2Nat.id; exact Hk).
  rewrite <- pow_powerRZ. apply pow_IZR.
Qed.

Lemma ln_0 : ln 0 = 0.
Proof. unfold ln. destruct (Rlt_dec 0 0) as [H|H]; [exfalso; lra | reflexivity]. Qed.

Lemma f32_exponent_le_0 s : 0 <= s <= 1 -> (f32_exponent s <= 0)%Z.
Proof.
  intros [H0 H1]. unfold f32_exponent. apply Z.max_lub; [|lia].
  rewrite Rabs_right by lra.
  assert (Hl : ln s / ln 2 <= 0).
  { destruct (Req_dec s 0) as [->|Hs].
    - rewrite ln_0. unfold Rdiv. lra.
    - assert (ln s <= 0).
      { rewrite <- ln_1. destruct (Req_dec s 1) as [->|]; [lra|].
        left. apply ln_increasing; lra. }
      pose proof ln_2_pos. apply Rmult_le_reg_r with (ln 2); [lra|].
      unfold Rdiv. rewrite Rmult_assoc, Rinv_l by lra. lra. }
  destruct (Zfloor_spec (ln s / ln 2)) as [H _].
  apply le_IZR. lra.
Qed.

Lemma fl32_unit_interval s : 0 <= s <= 1 -> 0 <= fl32 s <= 1.
Proof.
  intros Hs. pose proof (f32_ulp_pos s) as Hu. unfold fl32. split.
  - apply Rmult_le_pos; [|lra]. apply IZR_le, Znearest_even_ge.
    apply Rmult_le_pos; [lra|]. left. now apply Rinv_0_lt_compat.
  - pose proof (@f32_exponent_le_0 s Hs) as He.
    set (k := (23 - f32_exponent s)%Z).
    assert (Hk : (0 <= k)%Z) by (unfold k; lia).
    assert (Einv : / f32_ulp s = IZR (2 ^ k)).
    { unfold f32_ulp. rewrite <- powerRZ_neg'. rewrite <- powerRZ_2_nonneg_IZR by exact Hk.
      f_equal. unfold k. lia. }
    assert (Hn : (Znearest_even (s / f32_ulp s) <= 2 ^ k)%Z).
    { apply Znearest_even_le. unfold Rdiv. rewrite Einv.
      rewrite <- (Rmult_1_l (IZR (2 ^ k))) at 2.
      apply Rmult_le_compat_r; [|lra]. apply IZR_le. apply Z.pow_nonneg. lia. }
    apply IZR_le in Hn.
    replace 1 with (IZR (2 ^ k) * f32_ulp s).
    + apply Rmult_le_compat_r; lra.
    + rewrite <- Einv. field. lra.
Qed.

Lemma sigmoid_unit_interval x : 0 <= sigmoid x <= 1.
Proof.
  apply fl32_unit_interval. unfold exact_sigmoid. pose proof (exp_pos (- x)) as He. split.
  - left. apply Rdiv_lt_0_compat; lra.
  - left. apply (Rmult_lt_reg_r (1 + exp (- x))); [lra|].
    unfold Rdiv. rewrite Rmult_assoc, Rinv_l by lra. lra.
Qed.

(** Within [2^-25] of 1 the float32 value is 1 itself. *)
Lemma fl32_saturates s : 1 - / 2 ^ 25 < s < 1 -> fl32 s = 1.
Proof.
  intros [H1 H2].
  assert (Hp : 0 < / 2 ^ 25) by (apply Rinv_0_lt_compat, pow_lt; lra).
  assert (Hp' : / 2 ^ 25 < / 2).
  { apply Rinv_lt_contravar; [|simpl; lra]. apply Rmult_lt_0_compat; [lra|apply pow_lt; lra]. }
  assert (He : f32_exponent s = (-1)%Z).
  { unfold f32_exponent. rewrite Rabs_right by lra.
    rewrite (@Zfloor_eq (ln s / ln 2) (-1)); [reflexivity|].
    pose proof ln_2_pos as L2.
    assert (A : ln s < 0) by (rewrite <- ln_1; apply ln_increasing; lra).
    assert (B : - ln 2 <= ln s).
    { rewrite <- ln_Rinv by lra. left. apply ln_increasing; lra. }
    split.
    - apply Rmult_le_reg_r with (ln 2); [lra|].
      unfold Rdiv. rewrite Rmult_assoc, Rinv_l by lra. lra.
    - apply Rmult_lt_reg_r with (ln 2); [lra|].
      unfold Rdiv. rewrite Rmult_assoc, Rinv_l by lra. lra. }
  unfold fl32, f32_ulp. rewrite He.
  change (-1 - 23)%Z with (Z.opp 24). rewrite powerRZ_neg'.
  rewrite (@powerRZ_2_nonneg_IZR 24) by lia.
  rewrite (@Znearest_even_up _ (2 ^ 24)).
  - field. apply not_0_IZR. lia.
  - unfold Rdiv. rewrite Rinv_inv.
    assert (E24 : IZR (2 ^ 24) = 2 ^ 24).
    { change 24%Z with (Z.of_nat 24). now rewrite <- pow_IZR. }
    rewrite E24. assert (E25 : 2 ^ 25 = 2 * 2 ^ 24) by (simpl; lra).
    rewrite E25 in H1. assert (P24 : 0 < 2 ^ 24) by (apply pow_lt; lra).
    assert (Hinv : / (2 * 2 ^ 24) * 2 ^ 24 = / 2) by (field; lra).
    split; nra.
Qed.

Lemma relu_nonneg x : 0 <= relu x.
Proof. apply Rmax_l. Qed.

Lemma softmax_length v : length (softmax v) = length v.
Proof. apply length_map. Qed.

Lemma exp_sum_pos v : v <> [] -> 0 < Rsum (map exp v).
Proof.
  intros Hne. apply Rsum_pos.
  - destruct v; simpl; congruence.
  - apply Forall_forall; intros y Hy. apply in_map_iff in Hy as (x & <- & _). apply exp_pos.
Qed.

Lemma softmax_pos v : Forall (fun x => 0 < x) (softmax v).
Proof.
  destruct v as [|a v]; [constructor|].
  apply Forall_forall; intros y Hy. apply in_map_iff in Hy as (x & <- & _).
  apply Rdiv_lt_0_compat; [apply exp_pos | apply exp_sum_pos; discriminate].
Qed.

Lemma softmax_nonneg v : Forall (fun x => 0 <= x) (softmax v).
Proof. eapply Forall_impl; [|apply softmax_pos]; simpl; intros; lra. Qed.

Lemma softmax_sum v : v <> [] -> Rsum (softmax v) = 1.
Proof.
  intros Hne. pose proof (exp_sum_pos Hne) as Hs. unfold softmax.
  rewrite <- (map_map exp (fun e => e / Rsum (map exp v))), Rsum_div.
  unfold Rdiv; apply Rinv_r; lra.
Qed.

(** ** Transposition, products and weighted sums *)

Lemma length_transpose (m : mat) : length (transpose m) = ncols m.
Proof. unfold transpose. now rewrite length_map, length_seq. Qed.

Lemma rect_transpose (m : mat) : rect (length m) (transpose m).
Proof.
  unfold rect, transpose. apply Forall_forall; intros r Hr.
  apply in_map_iff in Hr as (j & <- & _). apply length_map.
Qed.

Lemma nth_transpose (m : mat) j :
  (j < ncols m)%nat -> nth j (transpose m) [] = map (fun row => nth j row 0) m.
Proof.
  intros Hj. unfold transpose.
  rewrite (nth_indep _ [] (map (fun row => nth 0%nat row 0) m))
    by now rewrite length_map, length_seq.
  rewrite (map_nth (fun j => map (fun row => nth j row 0) m) (seq 0 (ncols m)) 0%nat j).
  now rewrite seq_nth.
Qed.

Lemma ncols_rect d (m : mat) : m <> [] -> rect d m -> ncols m = d.
Proof. intros Hne Hr. destruct m; [congruence|]. now inversion Hr. Qed.

Lemma ncols_transpose (m : mat) : (1 <= ncols m)%nat -> ncols (transpose m) = length m.
Proof.
  intros H. unfold ncols at 1.
  replace (hd [] (transpose m)) with (nth 0 (transpose m) []) by (now destruct (transpose m)).
  rewrite nth_transpose by lia. apply length_map.
Qed.

Lemma transpose_involutive d (m : mat) :
  m <> [] -> (1 <= d)%nat -> rect d m -> transpose (transpose m) = m.
Proof.
  intros Hne Hd Hr. pose proof (ncols_rect Hne Hr) as Hc.
  assert (Hlen : length (transpose (transpose m)) = length m).
  { rewrite length_transpose. apply ncols_transpose. lia. }
  apply (nth_ext _ _ [] []); [exact Hlen|].
  intros i Hi'.
  assert (Hi : (i < length m)%nat) by (apply (Nat.lt_le_trans _ _ _ Hi'), Nat.eq_le_incl, Hlen).
  rewrite nth_transpose by (rewrite ncols_transpose; lia).
  assert (Hri : length (nth i m []) = d).
  { unfold rect in Hr. rewrite Forall_forall in Hr. apply Hr, nth_In, Hi. }
  apply (nth_ext _ _ 0 0).
  - now rewrite length_map, length_transpose, Hc.
  - intros k Hk. rewrite length_map, length_transpose, Hc in Hk.
    rewrite (nth_indep _ 0 ((fun row => nth i row 0) [])) by
      (now rewrite length_map, length_transpose, Hc).
    rewrite (map_nth (fun row => nth i row 0) (transpose m) [] k).
    rewrite nth_transpose by lia.
    rewrite (nth_indep _ 0 ((fun row => nth k row 0) [])) by (now rewrite length_map).
    now rewrite (map_nth (fun row => nth k row 0) m [] i).
Qed.

Lemma length_matmul (a b : mat) : length (matmul a b) = length a.
Proof. apply length_map. Qed.

Lemma matmul_unfold (a b : mat) :
  matmul a b = map (fun row => map (dot row) (transpose b)) a.
Proof. reflexivity. Qed.

Lemma dot_comm u v : dot u v = dot v u.
Proof.
  unfold dot. f_equal. revert v; induction u as [|x u IH]; intros [|y v]; simpl; auto.
  f_equal; [lra | apply IH].
Qed.

Lemma length_vadd u v : length (vadd u v) = Nat.min (length u) (length v).
Proof. apply map2_length. Qed.

Lemma length_vsum d (rows : mat) :
  rect d rows -> length (fold_right vadd (repeat 0 d) rows) = d.
Proof.
  induction 1 as [|r rows Hr _ IH]; simpl.
  - apply repeat_length.
  - rewrite length_vadd, IH, Hr. lia.
Qed.

Lemma rect_map2_scale d w (rows : mat) : rect d rows -> rect d (map2 scale w rows).
Proof.
  intros Hr; revert w; induction Hr as [|r rows Hr _ IH]; intros [|a w]; simpl; try constructor.
  - unfold scale. now rewrite length_map.
  - apply IH.
Qed.

Lemma nth_vsum_scaled d k w (rows : mat) :
  rect d rows -> (k < d)%nat ->
  nth k (fold_right vadd (repeat 0 d) (map2 scale w rows)) 0
  = Rsum (map2 Rmult w (map (fun r => nth k r 0) rows)).
Proof.
  intros Hr Hk; revert w; induction Hr as [|r rows Hr Hrs IH]; intros [|a w]; simpl;
    try (apply nth_repeat).
  unfold vadd at 1.
  rewrite (nth_map2 Rplus _ _ 0 0 0).
  - rewrite IH. unfold scale.
    rewrite (nth_indep _ 0 (a * 0)) by (rewrite length_map; lia).
    now rewrite (map_nth (Rmult a) r 0 k).
  - unfold scale. rewrite length_map. lia.
  - rewrite length_vsum; [lia | now apply rect_map2_scale].
Qed.

(** Multiplying a row of weights into a matrix gives the weighted sum of
    the rows of the matrix. *)
Lemma dot_transpose_weighted_sum d w (rows : mat) :
  rect d rows -> map (dot w) (transpose rows) = weighted_sum w rows.
Proof.
  intros Hr. destruct rows as [|r0 rows'] eqn:E; [now destruct w|]. rewrite <- E in *.
  assert (Hc : ncols rows = d) by (apply ncols_rect; [subst; discriminate | exact Hr]).
  unfold weighted_sum. rewrite Hc.
  apply (nth_ext _ _ 0 0).
  - rewrite length_map, length_transpose, Hc.
    symmetry. apply length_vsum, rect_map2_scale, Hr.
  - intros k Hk. rewrite length_map, length_transpose, Hc in Hk.
    rewrite nth_vsum_scaled by assumption.
    rewrite (nth_indep _ 0 (dot w [])) by (now rewrite length_map, length_transpose, Hc).
    rewrite (map_nth (dot w) (transpose rows) [] k).
    rewrite nth_transpose by lia. reflexivity.
Qed.

Lemma length_weighted_sum d w (rows : mat) :
  rows <> [] -> rect d rows -> length (weighted_sum w rows) = d.
Proof.
  intros Hne Hr. unfold weighted_sum. rewrite (ncols_rect Hne Hr).
  apply length_vsum, rect_map2_scale, Hr.
Qed.

Lemma length_Linear_forward n_in n_out l x :
  Linear_shape n_in n_out l -> (1 <= n_in)%nat -> length (Linear_forward l x) = n_out.
Proof.
  intros (Hw & Hr & Hb) Hin. unfold Linear_forward, vadd.
  rewrite map2_length, length_map, length_transpose, Hb.
  rewrite (@ncols_rect n_out (weight l)); [lia | | exact Hr].
  intros E. rewrite E in Hw. simpl in Hw. lia.
Qed.

(** ** The normalisation helper *)

Lemma length_l2norm x : length (l2norm x) = length x.
Proof. apply length_map. Qed.

Lemma norm2_l2norm x : norm2 (l2norm x) * (norm2 x + eps) = norm2 x.
Proof using eps_pos.
  pose proof (norm2_nonneg x) as Hn.
  set (c := norm2 x + eps). assert (Hc : 0 < c) by (unfold c; lra).
  assert (E : Rsum (map (fun v => v * v) (l2norm x))
              = Rsum (map (fun v => v * v) x) / (c * c)).
  { unfold l2norm. fold c. rewrite map_map, <- Rsum_div, map_map.
    f_equal. apply map_ext. intros a. field. lra. }
  unfold norm2 at 1. rewrite E.
  rewrite sqrt_div_alt by nra. rewrite sqrt_square by lra.
  fold (norm2 x). field. lra.
Qed.

Lemma norm2_l2norm_lt_1 x : 0 <= norm2 (l2norm x) < 1.
Proof using eps_pos.
  pose proof (norm2_l2norm x) as E. pose proof (norm2_nonneg x) as Hn.
  pose proof (norm2_nonneg (l2norm x)) as Hm.
  split; [exact Hm|]. nra.
Qed.

(** ** Graph reasoning *)

Lemma map2_map_map {A B C D} (h : B -> C -> D) (f : A -> B) (g : A -> C) xs :
  map2 h (map f xs) (map g xs) = map (fun x => h (f x) (g x)) xs.
Proof. induction xs; simpl; f_equal; auto. Qed.

Lemma map2_map_id {A B D} (h : B -> A -> D) (f : A -> B) xs :
  map2 h (map f xs) xs = map (fun x => h (f x) x) xs.
Proof. induction xs; simpl; f_equal; auto. Qed.

Lemma Forall2_map_r {A B} (P : A -> B -> Prop) (f : A -> B) xs :
  Forall (fun x => P x (f x)) xs -> Forall2 P xs (map f xs).
Proof. induction 1; simpl; constructor; auto. Qed.

Lemma ncols_Linear2 n_in n_out l (m : mat) :
  Linear_shape n_in n_out l -> (1 <= n_in)%nat -> m <> [] -> ncols (Linear2 l m) = n_out.
Proof.
  intros Hl Hin Hne. destruct m as [|x m]; [congruence|].
  unfold ncols; simpl. now apply length_Linear_forward with n_in.
Qed.

Lemma softmax_rows_stochastic n (m : mat) :
  (1 <= n)%nat -> rect n m -> row_stochastic n (map softmax m).
Proof.
  intros Hn Hr. unfold row_stochastic. apply Forall_map.
  eapply Forall_impl; [|exact Hr]. intros row Hrow; simpl in Hrow.
  unfold prob_vector. rewrite softmax_length. repeat split; auto using softmax_nonneg.
  apply softmax_sum. intros E; subst row; simpl in Hrow; lia.
Qed.

Lemma rect_matmul_transpose (q k : mat) :
  (1 <= ncols k)%nat -> rect (length k) (matmul q (transpose k)).
Proof.
  intros Hk. unfold rect, matmul. apply Forall_map, Forall_forall. intros row _.
  rewrite length_map, length_transpose. now apply ncols_transpose.
Qed.

Lemma GraphReasoning_edge_map self sim_emb :
  GraphReasoning_edge self sim_emb = map (edge1 self) sim_emb.
Proof.
  unfold GraphReasoning_edge, bmm, transpose021, Linear3, edge1.
  rewrite map_map, map2_map_map, map_map. reflexivity.
Qed.

Lemma edge1_stochastic d self (g : mat) :
  (1 <= d)%nat -> GraphReasoning_shape d self -> g <> [] ->
  length (edge1 self g) = length g /\ row_stochastic (length g) (edge1 self g).
Proof.
  intros Hd (Hq & Hk & Hg) Hne. split.
  - unfold edge1, Linear2. now rewrite length_map, length_matmul, length_map.
  - unfold edge1. apply softmax_rows_stochastic.
    + destruct g; simpl; [congruence | lia].
    + replace (length g) with (length (Linear2 (graph_key_w self) g))
        by apply length_map.
      apply rect_matmul_transpose. now rewrite (ncols_Linear2 Hk Hd Hne).
Qed.

(** C3: in [GraphReasoning.forward] every row of the edge matrix of every
    graph is a softmax over the nodes of the graph (nonnegative entries that
    sum to one), every propagated node is the combination of the input nodes
    weighted by its row of the edge matrix, and no entry of the returned
    tensor is negative. *)
Theorem GraphReasoning_forward_row_stochastic (d : nat) (self : GraphReasoning)
    (sim_emb : tensor3) :
  (1 <= d)%nat -> GraphReasoning_shape d self ->
  Forall (fun g => g <> [] /\ rect d g) sim_emb ->
  Forall2 (fun g e => length e = length g /\ row_stochastic (length g) e)
          sim_emb (GraphReasoning_edge self sim_emb)
  /\ GraphReasoning_propagate self sim_emb
     = map2 (fun e g => map (fun row => weighted_sum row g) e)
            (GraphReasoning_edge self sim_emb) sim_emb
  /\ Forall (Forall (Forall (fun x => 0 <= x))) (GraphReasoning_forward self sim_emb).
Proof.
  intros Hd Hs Hg. repeat split.
  - rewrite GraphReasoning_edge_map. apply Forall2_map_r.
    eapply Forall_impl; [|exact Hg]. intros g [Hne _].
    now apply edge1_stochastic with d.
  - unfold GraphReasoning_propagate, bmm. rewrite GraphReasoning_edge_map.
    rewrite !map2_map_id. apply map_ext_in. intros g Hin.
    rewrite Forall_forall in Hg. destruct (Hg g Hin) as [_ Hr].
    unfold matmul. apply map_ext. intros row.
    now apply dot_transpose_weighted_sum with d.
  - unfold GraphReasoning_forward.
    apply Forall_map, Forall_forall; intros g _.
    apply Forall_map, Forall_forall; intros node _.
    apply Forall_map, Forall_forall; intros x _. apply relu_nonneg.
Qed.

(** ** SCAN attention *)

Lemma dot_nil_r u : dot u [] = 0.
Proof. now destruct u. Qed.

Lemma norm2_l2norm_eq x : norm2 (l2norm x) = 1 - eps / (norm2 x + eps).
Proof using eps_pos.
  pose proof (norm2_l2norm x) as E. pose proof (norm2_nonneg x) as Hn.
  apply (Rmult_eq_reg_r (norm2 x + eps)); [|lra].
  rewrite E. field. lra.
Qed.

Lemma rect_map_rows d (f : vec -> vec) (m : mat) :
  (forall r, length (f r) = length r) -> rect d m -> rect d (map f m).
Proof.
  intros Hf Hr. unfold rect in *. apply Forall_map.
  eapply Forall_impl; [|exact Hr]. intros r Hl; simpl. now rewrite Hf.
Qed.

Lemma rect_transpose_of d (m : mat) :
  m <> [] -> (1 <= d)%nat -> rect d m ->
  length (transpose m) = d /\ rect (length m) (transpose m).
Proof.
  intros Hne Hd Hr. split; [|apply rect_transpose].
  rewrite length_transpose. now apply ncols_rect.
Qed.

Lemma SCAN_weights1_shape d (query context : mat) smooth :
  (1 <= d)%nat -> query <> [] -> rect d query -> context <> [] ->
  length (SCAN_weights1 query context smooth) = length query
  /\ row_stochastic (length context) (SCAN_weights1 query context smooth).
Proof.
  intros Hd Hq Hqr Hc.
  set (attn := map l2norm (map (map (leaky_relu (1 / 10)))
                               (matmul context (transpose query)))).
  assert (Hlen : length attn = length context).
  { unfold attn. rewrite !length_map. apply length_matmul. }
  assert (Hrect : rect (length query) attn).
  { unfold attn. apply rect_map_rows; [apply length_l2norm|].
    apply rect_map_rows; [intros; apply length_map|].
    apply rect_matmul_transpose. rewrite (ncols_rect Hq Hqr). exact Hd. }
  assert (Hne : attn <> []).
  { intros E. rewrite E in Hlen. destruct context; simpl in Hlen; congruence. }
  assert (Hql : (1 <= length query)%nat) by (destruct query; simpl; [congruence | lia]).
  destruct (rect_transpose_of Hne Hql Hrect) as [Ht1 Ht2].
  change (SCAN_weights1 query context smooth)
    with (map (fun row => softmax (map (fun x => x * smooth) row)) (transpose attn)).
  split; [now rewrite length_map|].
  rewrite <- (map_map (map (fun x => x * smooth)) softmax).
  apply softmax_rows_stochastic.
  - destruct context; simpl; [congruence | lia].
  - apply rect_map_rows; [intros; apply length_map|]. now rewrite <- Hlen.
Qed.

Lemma SCAN_context1_weighted d (query context : mat) smooth :
  (1 <= d)%nat -> query <> [] -> rect d query -> context <> [] -> rect d context ->
  SCAN_context1 query context smooth
  = map (fun w => weighted_sum w context) (SCAN_weights1 query context smooth).
Proof.
  intros Hd Hq Hqr Hc Hcr.
  destruct (SCAN_weights1_shape smooth Hd Hq Hqr Hc) as [HWl HWs].
  set (W := SCAN_weights1 query context smooth) in *.
  assert (HWne : W <> []).
  { intros E. rewrite E in HWl. destruct query; simpl in HWl; congruence. }
  assert (HWr : rect (length context) W).
  { unfold row_stochastic in HWs. unfold rect.
    eapply Forall_impl; [|exact HWs]. now intros r [Hl _]. }
  assert (HS : (1 <= length context)%nat) by (destruct context; simpl; [congruence | lia]).
  unfold SCAN_context1. fold W.
  rewrite (matmul_unfold (transpose context) (transpose W)).
  rewrite (transpose_involutive HWne HS HWr).
  set (X := map (fun colk => map (dot colk) W) (transpose context)).
  assert (HXl : length X = d).
  { unfold X. rewrite length_map, length_transpose. now apply ncols_rect. }
  assert (HXr : rect (length W) X).
  { unfold X, rect. apply Forall_map, Forall_forall. intros r _. apply length_map. }
  assert (HXne : X <> []) by (intros E; rewrite E in HXl; simpl in HXl; lia).
  assert (HXc : ncols X = length W) by now apply ncols_rect.
  apply (nth_ext _ _ [] []).
  - now rewrite length_transpose, length_map.
  - intros q Hq'. assert (Hq2 : (q < length W)%nat).
    { apply (Nat.lt_le_trans _ _ _ Hq'), Nat.eq_le_incl.
      rewrite length_transpose. exact HXc. }
    rewrite nth_transpose by (rewrite HXc; exact Hq2).
    rewrite (nth_map_lt (fun w => weighted_sum w context) W [] [] Hq2).
    rewrite <- (dot_transpose_weighted_sum _ Hcr).
    unfold X. rewrite map_map. apply map_ext. intros colk.
    rewrite (nth_map_lt (dot colk) W [] 0 Hq2). apply dot_comm.
Qed.

(** C2: in [SCAN_attention] the weights of every query position are a
    softmax over the source positions (nonnegative, of sum one), the
    returned row of the position is [l2norm] of the context vectors combined
    with these weights, and the Euclidean norm of that row is one up to the
    guard: it is [1 - eps / (n + eps)] for [n] the norm of the combination. *)
Theorem SCAN_attention_convex_normalized (d : nat) (query context : tensor3)
    (smooth eps' : R) :
  (1 <= d)%nat -> length query = length context ->
  Forall (fun q => q <> [] /\ rect d q) query ->
  Forall (fun c => c <> [] /\ rect d c) context ->
  length (SCAN_attention query context smooth eps') = length query
  /\ forall b, (b < length query)%nat ->
       let w := nth b (SCAN_weights query context smooth) [] in
       let c := nth b context [] in
       length w = length (nth b query [])
       /\ row_stochastic (length c) w
       /\ nth b (SCAN_attention query context smooth eps') []
          = map (fun row => l2norm (weighted_sum row c)) w
       /\ Forall (fun row =>
                    norm2 (l2norm (weighted_sum row c))
                    = 1 - eps / (norm2 (weighted_sum row c) + eps)
                    /\ 0 <= norm2 (l2norm (weighted_sum row c)) < 1) w.
Proof using eps_pos.
  intros Hd Hlen Hq Hc. split.
  - unfold SCAN_attention. rewrite map2_length. lia.
  - intros b Hb w c.
    assert (Hb' : (b < length context)%nat) by lia.
    rewrite Forall_forall in Hq, Hc.
    destruct (Hq (nth b query []) (nth_In _ _ Hb)) as [Hqne Hqr].
    destruct (Hc (nth b context []) (nth_In _ _ Hb')) as [Hcne Hcr].
    assert (Ew : w = SCAN_weights1 (nth b query []) (nth b context []) smooth).
    { unfold w, SCAN_weights.
      apply (nth_map2 (fun q c => SCAN_weights1 q c smooth)); assumption. }
    destruct (SCAN_weights1_shape smooth Hd Hqne Hqr Hcne) as [Hl Hs].
    subst c. rewrite <- Ew in Hl, Hs.
    repeat split; try assumption.
    + unfold SCAN_attention.
      rewrite (nth_map2 (fun q c => SCAN_attention1 q c smooth) _ _ [] [] []) by assumption.
      unfold SCAN_attention1.
      rewrite (SCAN_context1_weighted smooth Hd Hqne Hqr Hcne Hcr).
      rewrite <- Ew, map_map. reflexivity.
    + apply Forall_forall. intros row _. split.
      * apply norm2_l2norm_eq.
      * apply norm2_l2norm_lt_1.
Qed.

(** ** Runs of the state-and-exception monad *)

Lemma bind_inr {A B} {m : M A} (k : A -> M B) {g a g'} :
  m g = inr (a, g') -> bind m k g = k a g'.
Proof. intros E. unfold bind. now rewrite E. Qed.

Lemma bind_inl {A B} {m : M A} (k : A -> M B) {g e} :
  m g = inl e -> bind m k g = inl e.
Proof. intros E. unfold bind. now rewrite E. Qed.

Lemma mapM_total {A B} (f : A -> M B) (P : A -> B -> Prop) xs :
  (forall x g, In x xs -> exists y g', f x g = inr (y, g') /\ P x y) ->
  forall g, exists ys g', mapM f xs g = inr (ys, g') /\ Forall2 P xs ys.
Proof.
  induction xs as [|x xs IH]; intros Hf g; simpl.
  - exists [], g. split; [reflexivity | constructor].
  - destruct (Hf x g (or_introl eq_refl)) as (y & g1 & E1 & Py).
    destruct (IH (fun x g H => Hf x g (or_intror H)) g1) as (ys & g2 & E2 & Pys).
    exists (y :: ys), g2. split; [|now constructor].
    rewrite (bind_inr _ E1), (bind_inr _ E2). reflexivity.
Qed.

Lemma Forall2_length_eq {A B} (P : A -> B -> Prop) xs ys :
  Forall2 P xs ys -> length ys = length xs.
Proof. induction 1; simpl; congruence. Qed.

Lemma Forall2_Forall_r {A B} (P : B -> Prop) (xs : list A) (ys : list B) :
  Forall2 (fun _ y => P y) xs ys -> Forall P ys.
Proof. induction 1; constructor; auto. Qed.

(** Dropout returns, and keeps the shape of its input. *)
Lemma Dropout_vec_total p x g :
  exists y g', Dropout_vec p x g = inr (y, g') /\ length y = length x.
Proof.
  unfold Dropout_vec. destruct training.
  - eexists _, _. split; [reflexivity|].
    rewrite map2_length, length_map, length_seq. lia.
  - exists x, g. now split.
Qed.

Lemma Dropout2_total p x g :
  exists y g', Dropout2 p x g = inr (y, g')
               /\ Forall2 (fun a b => length b = length a) x y.
Proof. apply mapM_total. intros; apply Dropout_vec_total. Qed.

Lemma Dropout3_total p x g :
  exists y g', Dropout3 p x g = inr (y, g')
               /\ Forall2 (Forall2 (fun a b => length b = length a)) x y.
Proof. apply mapM_total. intros; apply Dropout2_total. Qed.

(** ** Self-attention pooling *)

Lemma sum_rows_vsum d (m : mat) :
  m <> [] -> rect d m -> sum_rows m = fold_right vadd (repeat 0 d) m.
Proof.
  intros Hne Hr. pose proof (ncols_rect Hne Hr) as Hc. unfold sum_rows.
  apply (nth_ext _ _ 0 0).
  - now rewrite length_map, length_transpose, length_vsum.
  - intros k Hk. rewrite length_map, length_transpose, Hc in Hk.
    rewrite (nth_map_lt Rsum (transpose m) [] 0) by (now rewrite length_transpose, Hc).
    rewrite nth_transpose by lia.
    clear Hne Hc. induction Hr as [|r m Hl Hr IH]; simpl.
    + now rewrite nth_repeat.
    + rewrite IH. unfold vadd at 1.
      rewrite (nth_map2 Rplus _ _ 0 0 0); [reflexivity | lia |].
      rewrite length_vsum; [lia | exact Hr].
Qed.

Lemma sum_rows_weighted_sum d w (rows : mat) :
  w <> [] -> rows <> [] -> rect d rows ->
  sum_rows (map2 scale w rows) = weighted_sum w rows.
Proof.
  intros Hw Hne Hr. unfold weighted_sum. rewrite (ncols_rect Hne Hr).
  apply sum_rows_vsum; [|now apply rect_map2_scale].
  destruct w, rows; simpl; congruence.
Qed.

Lemma SA_weights_stochastic n common_w (l_emb : tensor3) (g_emb : mat) :
  (1 <= n)%nat -> Forall (fun l => length l = n) l_emb -> length g_emb = length l_emb ->
  length (SA_weights common_w l_emb g_emb) = length l_emb
  /\ row_stochastic n (SA_weights common_w l_emb g_emb).
Proof.
  intros Hn Hl Hg. unfold SA_weights.
  assert (Hc : l_emb <> [] -> ncols l_emb = n).
  { destruct l_emb; [congruence|]. intros _. now inversion Hl. }
  generalize dependent (ncols l_emb). intros n' Hc.
  revert g_emb Hg. induction Hl as [|l l_emb Hlen Hl IH]; intros [|gv g_emb] Hg;
    simpl in Hg; try discriminate.
  - split; [reflexivity | constructor].
  - specialize (Hc ltac:(discriminate)). subst n'.
    destruct l_emb as [|l2 l_emb'] eqn:E.
    + destruct g_emb; [|discriminate]. simpl. split; [reflexivity|].
      constructor; [|constructor].
      assert (Hlen' : length (map (fun v : list R => nth 0 v 0)
                          (Linear2 common_w (map2 (map2 Rmult) l (repeat gv n)))) = n).
      { unfold Linear2. rewrite !length_map, map2_length, repeat_length. lia. }
      repeat split.
      * now rewrite softmax_length.
      * apply softmax_nonneg.
      * apply softmax_sum. intros E0; rewrite E0 in Hlen'; simpl in Hlen'; lia.
    + rewrite <- E in *.
      destruct (IH ltac:(intros _; subst l_emb; now inversion Hl) g_emb ltac:(lia)) as [IH1 IH2].
      simpl. split; [now rewrite IH1|].
      constructor; [|exact IH2].
      assert (Hlen' : length (map (fun v : list R => nth 0 v 0)
                          (Linear2 common_w (map2 (map2 Rmult) l (repeat gv n)))) = n).
      { unfold Linear2. rewrite !length_map, map2_length, repeat_length. lia. }
      repeat split.
      * now rewrite softmax_length.
      * apply softmax_nonneg.
      * apply softmax_sum. intros E0; rewrite E0 in Hlen'; simpl in Hlen'; lia.
Qed.

Lemma SA_pool_weighted n d (weights : mat) (local : tensor3) :
  (1 <= n)%nat -> row_stochastic n weights ->
  Forall (fun l => length l = n /\ rect d l) local ->
  SA_pool weights local = map2 (fun w l => l2norm (weighted_sum w l)) weights local.
Proof.
  intros Hn Hw Hl. unfold SA_pool. rewrite map_map2.
  revert local Hl. induction Hw as [|w weights Hpw _ IH]; intros [|l local] Hl;
    simpl; try reflexivity.
  destruct Hpw as [Hlw _].
  inversion_clear Hl as [|? ? Hx Hl']. destruct Hx as [Hll Hr].
  f_equal; [|now apply IH].
  f_equal. apply sum_rows_weighted_sum with d; try assumption.
  - intros E; rewrite E in Hlw; simpl in Hlw; lia.
  - intros E; rewrite E in Hll; simpl in Hll; lia.
Qed.

Lemma length_mapi {A B} (f : nat -> A -> B) xs : length (mapi f xs) = length xs.
Proof. unfold mapi. rewrite map2_length, length_seq. lia. Qed.

Lemma Forall_Forall2_length {A B} n (xs : list (list A)) (ys : list (list B)) :
  Forall (fun x => length x = n) xs ->
  Forall2 (fun x y => length y = length x) xs ys ->
  Forall (fun y => length y = n) ys.
Proof.
  intros Hx H2. induction H2 as [|x y xs ys Hxy _ IH]; constructor.
  - inversion Hx; congruence.
  - apply IH. now inversion Hx.
Qed.

Lemma Forall2_weaken_length {A B} (P : A -> B -> Prop) (xs : list (list A)) (ys : list (list B)) :
  Forall2 (Forall2 P) xs ys -> Forall2 (fun x y => length y = length x) xs ys.
Proof.
  induction 1 as [|x y xs ys Hxy _ IH]; constructor; auto.
  eapply Forall2_length_eq, Hxy.
Qed.

(** The scoring tail shared by the two layers: after the two dropouts the
    weights are a probability vector per sample. *)
Lemma SA_scores_total n p q common_w (X : tensor3) (Y : mat) g :
  (1 <= n)%nat -> Forall (fun x => length x = n) X -> length Y = length X ->
  exists w g',
    (l_emb <- Dropout3 p X ;; g_emb <- Dropout2 q Y ;; ret (SA_weights common_w l_emb g_emb)) g
    = inr (w, g')
    /\ length w = length X /\ row_stochastic n w.
Proof.
  intros Hn HX HY.
  destruct (Dropout3_total p X g) as (l_emb & g1 & E1 & S1).
  destruct (Dropout2_total q Y g1) as (g_emb & g2 & E2 & S2).
  exists (SA_weights common_w l_emb g_emb), g2.
  rewrite (bind_inr _ E1), (bind_inr _ E2).
  pose proof (Forall2_length_eq S1) as L1. pose proof (Forall2_length_eq S2) as L2.
  destruct (@SA_weights_stochastic n common_w l_emb g_emb Hn) as [Hl Hs].
  - eapply Forall_Forall2_length; [exact HX|]. now apply Forall2_weaken_length in S1.
  - congruence.
  - split; [reflexivity|]. split; [congruence | exact Hs].
Qed.

Lemma BatchNorm1D_forward3_rows bn (x : tensor3) :
  Forall2 (fun a b => length b = length a) x (BatchNorm1D_forward3 bn x).
Proof.
  unfold BatchNorm1D_forward3. apply Forall2_map_r, Forall_forall.
  intros s _. apply length_mapi.
Qed.

Lemma Forall_length_map_rows {A B} n (f : list A -> list B) (xs : list (list A)) :
  (forall x, length (f x) = length x) ->
  Forall (fun x => length x = n) xs -> Forall (fun x => length x = n) (map f xs).
Proof.
  intros Hf H. apply Forall_map. eapply Forall_impl; [|exact H].
  intros x Hx; simpl. now rewrite Hf.
Qed.

(** C4: on well-shaped inputs ([n_sample >= 1] samples of [n >= 1] local
    vectors of width [d >= 1], one raw global vector of width [d] per
    sample) and layers of the shapes their constructors give them,
    [VisualSA.forward] and [TextSA.forward] return, for every sample,
    [l2norm] of the local feature vectors combined with softmax weights
    (nonnegative, of sum one over the local positions of the sample); the
    Euclidean norm of the returned vector is one up to the guard, namely
    [1 - eps / (n + eps)] for [n] the norm of the combination. *)
Theorem SA_forward_weighted_normalized (n_sample n d : nat) (vsa : VisualSA) (tsa : TextSA)
    (local : tensor3) (raw_global : mat) (g : RNG) :
  (1 <= n_sample)%nat -> (1 <= n)%nat -> (1 <= d)%nat ->
  VisualSA_shape d n vsa -> TextSA_shape d tsa ->
  tensor_shape n_sample n d local ->
  length raw_global = n_sample -> rect d raw_global ->
  (exists w g',
      VisualSA_weights vsa local raw_global g = inr (w, g')
      /\ length w = length local /\ row_stochastic n w
      /\ VisualSA_forward vsa local raw_global g
         = inr (map2 (fun w l => l2norm (weighted_sum w l)) w local, g'))
  /\ (exists w g',
      TextSA_weights tsa local raw_global g = inr (w, g')
      /\ length w = length local /\ row_stochastic n w
      /\ TextSA_forward tsa local raw_global g
         = inr (map2 (fun w l => l2norm (weighted_sum w l)) w local, g'))
  /\ forall x, norm2 (l2norm x) = 1 - eps / (norm2 x + eps)
               /\ 0 <= norm2 (l2norm x) < 1.
Proof using eps_pos.
  intros _ Hn _ _ _ [Hbatch Hloc] Hraw _.
  assert (Hlen : length raw_global = length local) by congruence.
  assert (Hrows : Forall (fun l : list (list R) => length l = n) local).
  { eapply Forall_impl; [|exact Hloc]. now intros l [H _]. }
  split; [|split].
  - unfold VisualSA_forward, VisualSA_weights.
    edestruct (@SA_scores_total n (vsa_dropout_rate vsa) (vsa_dropout_rate vsa) (vsa_common vsa))
      as (w & g' & E & Hl & Hs); [exact Hn | | | ].
    3: { exists w, g'. split; [exact E|]. split; [|split; [exact Hs|]].
         - rewrite Hl. unfold BatchNorm1D_forward3, Linear3. now rewrite !length_map.
         - rewrite (bind_inr _ E). unfold ret.
           now rewrite (SA_pool_weighted Hn Hs Hloc). }
    + apply Forall_length_map_rows; [intros; apply length_map|].
      eapply Forall_Forall2_length; [|apply BatchNorm1D_forward3_rows].
      unfold Linear3. apply Forall_length_map_rows; [intros; apply length_map|]. exact Hrows.
    + unfold BatchNorm1D_forward2, BatchNorm1D_forward3, Linear2, Linear3.
      rewrite !length_map. exact Hlen.
  - unfold TextSA_forward, TextSA_weights.
    edestruct (@SA_scores_total n (tsa_dropout_rate tsa) (tsa_dropout_rate tsa) (tsa_common tsa))
      as (w & g' & E & Hl & Hs); [exact Hn | | | ].
    3: { exists w, g'. split; [exact E|]. split; [|split; [exact Hs|]].
         - rewrite Hl. unfold Linear3. now rewrite !length_map.
         - rewrite (bind_inr _ E). unfold ret.
           now rewrite (SA_pool_weighted Hn Hs Hloc). }
    + apply Forall_length_map_rows; [intros; apply length_map|].
      unfold Linear3. apply Forall_length_map_rows; [intros; apply length_map|]. exact Hrows.
    + unfold Linear2, Linear3. rewrite !length_map. exact Hlen.
  - intros x. split; [apply norm2_l2norm_eq | apply norm2_l2norm_lt_1].
Qed.

(** ** Construction *)

(** C8: [EncoderSimilarity.__init__], and with it [SGRAF.__init__], raises
    [ValueError] for every [module_name] other than ['SGR'] and ['SAF'];
    the default ['AVE'] of the signature is among the rejected names. *)
Theorem EncoderSimilarity_init_rejects (name module_name : string)
    (embed_size sim_dim sgr_step vocab_size word_dim num_layers image_dim : nat)
    (margin : R) (max_violation use_bi_gru image_norm text_norm : bool) :
  module_name <> "SGR"%string -> module_name <> "SAF"%string ->
  EncoderSimilarity_init name embed_size sim_dim module_name sgr_step
  = inl (ValueError "Invalid input of module_name")
  /\ SGRAF_init module_name sgr_step embed_size sim_dim vocab_size word_dim num_layers
       image_dim margin max_violation use_bi_gru image_norm text_norm
     = inl (ValueError "Invalid input of module_name")
  /\ EncoderSimilarity_init name embed_size sim_dim default_module_name default_sgr_step
     = inl (ValueError "Invalid input of module_name").
Proof.
  intros H1 H2.
  assert (E : forall nm, EncoderSimilarity_init nm embed_size sim_dim module_name sgr_step
                         = inl (ValueError "Invalid input of module_name")).
  { intros nm. unfold EncoderSimilarity_init.
    apply String.eqb_neq in H1, H2. now rewrite H1, H2. }
  split; [apply E|]. split; [|reflexivity].
  unfold SGRAF_init. now rewrite E.
Qed.

(** ** The SGR container *)

Lemma sgr_name_inj i j : sgr_name i = sgr_name j -> i = j.
Proof.
  unfold sgr_name. simpl. intros E. injection E as E.
  assert (E' : NilEmpty.uint_of_string (NilEmpty.string_of_uint (Nat.to_uint i))
               = NilEmpty.uint_of_string (NilEmpty.string_of_uint (Nat.to_uint j)))
    by now rewrite E.
  rewrite !NilEmpty.usu in E'. injection E' as E'.
  rewrite <- (DecimalNat.Unsigned.of_to i), <- (DecimalNat.Unsigned.of_to j).
  now rewrite E'.
Qed.

Lemma add_sublayer_fresh {L} (s : Sequential L) name (l : L) :
  ~ In name (map fst s) -> add_sublayer s name l = s ++ [(name, l)].
Proof.
  induction s as [|[n l'] s IH]; simpl; intros Hn; [reflexivity|].
  destruct (String.eqb_spec n name) as [->|_]; [exfalso; apply Hn; now left|].
  rewrite IH; [reflexivity|]. intros Hin. apply Hn. now right.
Qed.

(** The container that [__init__] fills holds one layer per step, under
    the names [SGR_0], [SGR_1], ... *)
Lemma SGR_container_built (mk : nat -> GraphReasoning) n :
  fold_left (fun s i => add_sublayer s (sgr_name i) (mk i)) (seq 0 n) []
  = map (fun i => (sgr_name i, mk i)) (seq 0 n).
Proof.
  induction n as [|n IH]; [reflexivity|].
  rewrite seq_S, fold_left_app, IH, map_app. simpl.
  apply add_sublayer_fresh. rewrite map_map. simpl.
  intros Hin. apply in_map_iff in Hin as (j & E & Hj).
  apply sgr_name_inj in E. apply in_seq in Hj. lia.
Qed.

Lemma get_sublayer_app {L} (s1 s2 : Sequential L) name :
  ~ In name (map fst s1) -> get_sublayer (s1 ++ s2) name = get_sublayer s2 name.
Proof.
  induction s1 as [|[n l] s1 IH]; simpl; intros Hn; [reflexivity|].
  destruct (String.eqb_spec n name) as [->|_]; [exfalso; apply Hn; now left|].
  apply IH. intros Hin. apply Hn. now right.
Qed.

Lemma get_sublayer_app_in {L} (s1 s2 : Sequential L) name :
  In name (map fst s1) -> get_sublayer (s1 ++ s2) name = get_sublayer s1 name.
Proof.
  induction s1 as [|[n l] s1 IH]; simpl; intros Hin; [contradiction|].
  destruct (String.eqb_spec n name); [reflexivity|].
  apply IH. destruct Hin; [congruence | assumption].
Qed.

Lemma SGR_lookups (layers : Sequential GraphReasoning) :
  SGR_named layers ->
  map (fun i => get_sublayer layers (sgr_name i)) (seq 0 (length layers))
  = map (fun nl => inr (snd nl)) layers.
Proof.
  unfold SGR_named.
  induction layers as [|[n l] layers IH] using rev_ind; [reflexivity|].
  rewrite length_app, Nat.add_comm. simpl length. rewrite seq_S, !map_app. simpl.
  intros E. apply app_inj_tail in E as [E1 E2].
  assert (Hfresh : ~ In n (map fst layers)).
  { rewrite E2, E1. intros Hin. apply in_map_iff in Hin as (j & Ej & Hj).
    apply sgr_name_inj in Ej. apply in_seq in Hj. lia. }
  f_equal.
  - rewrite <- (IH E1). apply map_ext_in. intros i Hi.
    apply get_sublayer_app_in. rewrite E1. now apply in_map.
  - rewrite get_sublayer_app by (rewrite <- E2; exact Hfresh).
    simpl. rewrite E2, String.eqb_refl. reflexivity.
Qed.

(** Fetching the layers by name applies them one after the other. *)
Lemma SGR_reason_fold (layers : Sequential GraphReasoning) sim_emb :
  SGR_named layers ->
  SGR_reason layers sim_emb
  = inr (fold_left (fun emb l => GraphReasoning_forward l emb) (map snd layers) sim_emb).
Proof.
  intros Hn. unfold SGR_reason.
  set (step := fun (acc : exn + list (list (list R))) (r : exn + GraphReasoning) =>
                 match acc with
                 | inl e => inl e
                 | inr emb => match r with
                              | inl e => inl e
                              | inr l => inr (GraphReasoning_forward l emb)
                              end
                 end).
  transitivity (fold_left step (map (fun i => get_sublayer layers (sgr_name i))
                                    (seq 0 (length layers))) (inr sim_emb)).
  - generalize (seq 0 (length layers)) (@inr exn _ sim_emb).
    intros idxs. induction idxs as [|i idxs IH]; intros acc; simpl; [reflexivity|].
    rewrite <- IH. reflexivity.
  - rewrite (SGR_lookups Hn). clear Hn. revert sim_emb.
    induction layers as [|[n l] layers IH]; intros sim_emb; simpl; [reflexivity|].
    apply IH.
Qed.

Lemma EncoderSimilarity_init_SGR name embed_size sim_dim sgr_step self :
  EncoderSimilarity_init name embed_size sim_dim "SGR" sgr_step = inr self ->
  module_name self = "SGR"%string
  /\ sim_eval_w self = Linear_init (name ++ ".sim_eval_w") sim_dim 1
  /\ sim_module self
     = SGR_module (map (fun i => (sgr_name i,
                                  GraphReasoning_init (name ++ ".SGR_module." ++ sgr_name i) sim_dim))
                       (seq 0 sgr_step)).
Proof.
  unfold EncoderSimilarity_init.
  rewrite (SGR_container_built
             (fun i => GraphReasoning_init (name ++ ".SGR_module." ++ sgr_name i) sim_dim)).
  change (String.eqb "SGR" "SGR") with true. cbv iota.
  intros E. injection E as <-. repeat split.
Qed.

(** ** Differentiability in a parameter *)

Lemma derivable_pt_lim_pointwise (f h : R -> R) (x l : R) :
  (forall t, f t = h t) -> derivable_pt_lim h x l -> derivable_pt_lim f x l.
Proof.
  intros E D e He. destruct (D e He) as [delta Hd]. exists delta.
  intros t Ht Hlt. rewrite !E. now apply Hd.
Qed.

Lemma relu_pos x : 0 <= x -> relu x = x.
Proof. intros H. unfold relu. now apply Rmax_right. Qed.

Lemma relu_neg x : x <= 0 -> relu x = 0.
Proof. intros H. unfold relu. now apply Rmax_left. Qed.

(** On the positive side of its kink the ReLU has slope one, ... *)
Lemma relu_affine_derivable_pos c b :
  0 < c + b -> derivable_pt_lim (fun t => relu (c + t)) b 1.
Proof.
  intros Hpos e He.
  exists (mkposreal (c + b) Hpos). simpl. intros h Hh Hlt.
  apply Rabs_def2 in Hlt as [H1 H2].
  rewrite (@relu_pos (c + (b + h))) by lra. rewrite (@relu_pos (c + b)) by lra.
  replace ((c + (b + h) - (c + b)) / h - 1) with 0 by (field; exact Hh).
  rewrite Rabs_R0. exact He.
Qed.

(** ... on the negative side slope zero, ... *)
Lemma relu_affine_derivable_neg c b :
  c + b < 0 -> derivable_pt_lim (fun t => relu (c + t)) b 0.
Proof.
  intros Hneg e He.
  assert (Hpos : 0 < - (c + b)) by lra.
  exists (mkposreal (- (c + b)) Hpos). simpl. intros h Hh Hlt.
  apply Rabs_def2 in Hlt as [H1 H2].
  rewrite (@relu_neg (c + (b + h))) by lra. rewrite (@relu_neg (c + b)) by lra.
  replace ((0 - 0) / h - 0) with 0 by (field; exact Hh).
  rewrite Rabs_R0. exact He.
Qed.

(** ... and at the kink no derivative: the difference quotient is 1 from
    the right and 0 from the left. *)
Lemma relu_affine_kink c b :
  c + b = 0 -> ~ exists l, derivable_pt_lim (fun t => relu (c + t)) b l.
Proof.
  intros Hk [l D].
  destruct (D (1 / 2) ltac:(lra)) as [[delta Hdelta] Hd]. simpl in Hd.
  assert (Hr : Rabs ((relu (c + (b + delta / 2)) - relu (c + b)) / (delta / 2) - l) < 1 / 2).
  { apply Hd; [lra|]. rewrite Rabs_right; lra. }
  assert (Hl : Rabs ((relu (c + (b + - (delta / 2))) - relu (c + b)) / (- (delta / 2)) - l)
               < 1 / 2).
  { apply Hd; [lra|]. rewrite Rabs_left; lra. }
  rewrite (@relu_pos (c + (b + delta / 2))) in Hr by lra.
  rewrite (@relu_neg (c + (b + - (delta / 2)))) in Hl by lra.
  rewrite (@relu_pos (c + b)) in Hr, Hl by lra.
  replace ((c + (b + delta / 2) - (c + b)) / (delta / 2) - l) with (1 - l) in Hr
    by (field; lra).
  replace ((0 - (c + b)) / - (delta / 2) - l) with (- l) in Hl by (rewrite Hk; field; lra).
  apply Rabs_def2 in Hr as [Hr1 Hr2]. apply Rabs_def2 in Hl as [Hl1 Hl2]. lra.
Qed.

Lemma nth_set_nth {A} (k : nat) (a d : A) (l : list A) :
  (k < length l)%nat -> nth k (set_nth k a l) d = a.
Proof.
  revert k; induction l as [|x l IH]; intros [|k] Hk; simpl in *; try lia; [reflexivity|].
  apply IH. lia.
Qed.

Lemma length_set_nth {A} (k : nat) (a : A) (l : list A) : length (set_nth k a l) = length l.
Proof. revert k; induction l as [|x l IH]; intros [|k]; simpl; auto. Qed.

Lemma length_GraphReasoning_propagate_graph self (sim_emb : tensor3) a :
  length (nth a (GraphReasoning_propagate self sim_emb) []) = length (nth a sim_emb []).
Proof.
  unfold GraphReasoning_propagate, bmm. rewrite GraphReasoning_edge_map, map2_map_id.
  destruct (Nat.lt_ge_cases a (length sim_emb)) as [Ha|Ha].
  - rewrite (nth_map_lt _ sim_emb [] []) by exact Ha.
    unfold edge1, matmul, Linear2. now rewrite !length_map.
  - rewrite !nth_overflow; [reflexivity | exact Ha | now rewrite length_map].
Qed.

(** The entry as a function of the bias: the ReLU of the score plus the
    bias. *)
Lemma GraphReasoning_entry_bias sim_dim self (sim_emb : tensor3) a n k t :
  Linear_shape sim_dim sim_dim (sim_graph_w self) ->
  (a < length sim_emb)%nat -> (n < length (nth a sim_emb []))%nat -> (k < sim_dim)%nat ->
  GraphReasoning_entry (with_output_bias self k t) sim_emb a n k
  = relu (GraphReasoning_score self sim_emb a n k + t).
Proof.
  intros (Hw & Hr & Hb) Ha Hn Hk.
  unfold GraphReasoning_entry, GraphReasoning_score, GraphReasoning_forward.
  change (GraphReasoning_propagate (with_output_bias self k t) sim_emb)
    with (GraphReasoning_propagate self sim_emb).
  pose proof (length_GraphReasoning_propagate_graph self sim_emb a) as Hlen.
  assert (Hlen0 : length (GraphReasoning_propagate self sim_emb) = length sim_emb).
  { unfold GraphReasoning_propagate, bmm. rewrite GraphReasoning_edge_map, map2_map_id.
    apply length_map. }
  rewrite (nth_map_lt _ (GraphReasoning_propagate self sim_emb) [] []) by lia.
  rewrite (nth_map_lt _ (nth a (GraphReasoning_propagate self sim_emb) []) [] []) by lia.
  set (node := nth n (nth a (GraphReasoning_propagate self sim_emb) []) []).
  assert (Hc : ncols (weight (sim_graph_w self)) = sim_dim).
  { apply ncols_rect; [|exact Hr]. intros E. rewrite E in Hw. simpl in Hw. lia. }
  unfold Linear_forward, vadd. simpl weight. simpl bias.
  assert (Hl1 : length (map (dot node) (transpose (weight (sim_graph_w self)))) = sim_dim)
    by now rewrite length_map, length_transpose.
  rewrite (nth_map_lt relu _ 0 0)
    by (rewrite map2_length, Hl1, length_set_nth, Hb; lia).
  f_equal.
  rewrite (nth_map2 Rplus _ _ 0 0 0) by (rewrite ?Hl1, ?length_set_nth, ?Hb; lia).
  rewrite nth_set_nth by (rewrite Hb; lia).
  rewrite (nth_map_lt (dot node) _ [] 0) by (rewrite length_transpose; lia).
  reflexivity.
Qed.


(** ** The composed and the staged pipeline *)

(** C5: [SGRAF.forward] is the contrastive loss of the similarity matrix of
    the encoded batch: from every state of the random source it does what
    [criterion(forward_sim(forward_emb(batch)))] does, the same loss or the
    same exception, and leaves the source in the same state. *)
Theorem SGRAF_forward_is_staged (self : SGRAF_model) (batch : Batch) (g : RNG) :
  SGRAF_forward self batch g = SGRAF_staged self batch g.
Proof.
  unfold SGRAF_forward, SGRAF_staged, forward_emb, forward_sim, bind.
  destruct (EncoderImage_forward (img_enc self) (image_feat batch) g) as [e|[img g1]];
    [reflexivity|].
  destruct (EncoderText_forward (txt_enc self) (text_token batch) (text_len batch) g1)
    as [e|[cap g2]]; [reflexivity|].
  cbv beta iota delta [ret].
  destruct (EncoderSimilarity_forward (sim_enc self) img cap (text_len batch) g2)
    as [e|[sims g3]]; reflexivity.
Qed.

(** ** Evaluation mode *)

Lemma tape_free_ret {A} (a : A) : tape_free (ret a).
Proof. exists (inr a). reflexivity. Qed.

Lemma tape_free_lift {A} (r : exn + A) : tape_free (lift r).
Proof. exists r. reflexivity. Qed.

Lemma tape_free_bind {A B} (m : M A) (k : A -> M B) :
  tape_free m -> (forall a, tape_free (k a)) -> tape_free (bind m k).
Proof.
  intros [[e|a] Hm] Hk.
  - exists (inl e). intros g. unfold bind. now rewrite Hm.
  - destruct (Hk a) as [r Hr]. exists r. intros g. unfold bind. rewrite Hm. simpl. apply Hr.
Qed.

Lemma tape_free_mapM {A B} (f : A -> M B) xs :
  (forall x, tape_free (f x)) -> tape_free (mapM f xs).
Proof.
  intros Hf. induction xs as [|x xs IH]; simpl.
  - apply tape_free_ret.
  - apply tape_free_bind; [apply Hf|]. intros y.
    apply tape_free_bind; [apply IH|]. intros ys. apply tape_free_ret.
Qed.

Lemma tape_free_outcome {A} (m : M A) g1 g2 :
  tape_free m -> outcome (m g1) = outcome (m g2).
Proof. intros [r Hr]. rewrite !Hr. now destruct r. Qed.

Lemma tape_free_rerun {A} (m : M A) g a g' :
  tape_free m -> m g = inr (a, g') -> g' = g /\ m g' = inr (a, g').
Proof.
  intros [r Hr] E. rewrite Hr in E. destruct r as [e|a']; simpl in E; [discriminate|].
  injection E as -> ->. split; [reflexivity|]. now rewrite Hr.
Qed.

Section EvalMode.

Hypothesis eval_mode : training = false.

Lemma tape_free_Dropout_vec p x : tape_free (Dropout_vec p x).
Proof using eval_mode. unfold Dropout_vec. rewrite eval_mode. apply tape_free_ret. Qed.

Lemma tape_free_Dropout2 p x : tape_free (Dropout2 p x).
Proof using eval_mode. apply tape_free_mapM. intros; apply tape_free_Dropout_vec. Qed.

Lemma tape_free_Dropout3 p x : tape_free (Dropout3 p x).
Proof using eval_mode. apply tape_free_mapM. intros; apply tape_free_Dropout2. Qed.

Ltac tape_free_steps :=
  repeat first
    [ apply tape_free_ret | apply tape_free_lift
    | apply tape_free_Dropout3 | apply tape_free_Dropout2
    | apply tape_free_bind; [|intros ?]
    | apply tape_free_mapM; intros ? ].

Lemma tape_free_VisualSA self local raw_global :
  tape_free (VisualSA_forward self local raw_global).
Proof using eval_mode. unfold VisualSA_forward, VisualSA_weights. tape_free_steps. Qed.

Lemma tape_free_TextSA self local raw_global :
  tape_free (TextSA_forward self local raw_global).
Proof using eval_mode. unfold TextSA_forward, TextSA_weights. tape_free_steps. Qed.

Lemma tape_free_EncoderSimilarity self img_emb cap_emb cap_lens :
  tape_free (EncoderSimilarity_forward self img_emb cap_emb cap_lens).
Proof using eval_mode.
  unfold EncoderSimilarity_forward.
  apply tape_free_bind; [apply tape_free_VisualSA | intros img_glo].
  apply tape_free_bind; [|intros; apply tape_free_ret].
  apply tape_free_mapM. intros i.
  unfold caption_sim, caption_sim_vec, caption_sim_emb. cbv zeta.
  apply tape_free_bind; [|intros; apply tape_free_ret].
  apply tape_free_bind; [|intros; apply tape_free_lift].
  apply tape_free_bind; [apply tape_free_TextSA | intros; apply tape_free_ret].
Qed.

Lemma tape_free_EncoderText self captions lengths :
  tape_free (EncoderText_forward self captions lengths).
Proof using eval_mode. unfold EncoderText_forward. cbv zeta. tape_free_steps. Qed.

Lemma tape_free_SGRAF self batch : tape_free (SGRAF_forward self batch).
Proof using eval_mode.
  unfold SGRAF_forward, EncoderImage_forward.
  apply tape_free_bind; [apply tape_free_ret | intros img].
  apply tape_free_bind; [apply tape_free_EncoderText | intros cap].
  apply tape_free_bind; [apply tape_free_EncoderSimilarity | intros sims].
  apply tape_free_ret.
Qed.

End EvalMode.

(** C10: in evaluation mode (dropout the identity, batch normalisation on
    its running statistics) the pipeline is deterministic: [SGRAF.forward]
    and [EncoderSimilarity.forward] give the same outcome from any two
    states of the random source, and a run leaves the source as it found
    it, so that a second run on the same inputs repeats the first. *)
Theorem eval_mode_deterministic (self : SGRAF_model) (batch : Batch)
    (enc : EncoderSimilarity) (img_emb cap_emb : tensor3) (cap_lens : list nat)
    (g1 g2 : RNG) :
  training = false ->
  outcome (SGRAF_forward self batch g1) = outcome (SGRAF_forward self batch g2)
  /\ outcome (EncoderSimilarity_forward enc img_emb cap_emb cap_lens g1)
     = outcome (EncoderSimilarity_forward enc img_emb cap_emb cap_lens g2)
  /\ (forall loss g', SGRAF_forward self batch g1 = inr (loss, g') ->
        SGRAF_forward self batch g' = inr (loss, g'))
  /\ (forall sims g', EncoderSimilarity_forward enc img_emb cap_emb cap_lens g1 = inr (sims, g') ->
        EncoderSimilarity_forward enc img_emb cap_emb cap_lens g' = inr (sims, g')).
Proof.
  intros Heval. repeat split.
  - apply tape_free_outcome, tape_free_SGRAF, Heval.
  - apply tape_free_outcome, tape_free_EncoderSimilarity, Heval.
  - intros loss g' E. eapply tape_free_rerun; [apply tape_free_SGRAF, Heval | exact E].
  - intros sims g' E.
    eapply tape_free_rerun; [apply tape_free_EncoderSimilarity, Heval | exact E].
Qed.

(** ** The text encoder *)

Lemma Forall2_compose {A B C} (P : A -> B -> Prop) (Q : B -> C -> Prop)
    (T : A -> C -> Prop) xs ys zs :
  (forall x y z, P x y -> Q y z -> T x z) ->
  Forall2 P xs ys -> Forall2 Q ys zs -> Forall2 T xs zs.
Proof.
  intros H HP; revert zs. induction HP; intros zs HQ; inversion HQ; subst; constructor; eauto.
Qed.

Lemma Forall2_map_right {A B C} (P : A -> B -> Prop) (Q : A -> C -> Prop) (f : B -> C) xs ys :
  (forall x y, P x y -> Q x (f y)) -> Forall2 P xs ys -> Forall2 Q xs (map f ys).
Proof. intros H; induction 1; simpl; constructor; auto. Qed.

Lemma average_halves_mean embed_size (out : tensor3) :
  out <> [] -> hd [] out <> [] -> rect3 (2 * embed_size) out ->
  average_halves out
  = map (map (fun w => map2 (fun a b => (a + b) / 2)
                            (firstn embed_size w) (skipn embed_size w))) out.
Proof.
  intros Hne Hne' Hr. unfold average_halves.
  assert (Hh : Nat.div (ncols (hd [] out)) 2 = embed_size).
  { destruct out as [|o out]; [congruence|]. cbn [hd] in *.
    inversion Hr as [|? ? Ho _]; subst. rewrite (ncols_rect Hne' Ho).
    rewrite (Nat.mul_comm 2 embed_size). apply Nat.div_mul. discriminate. }
  rewrite Hh. apply map_ext. intros o. apply map_ext. intros w.
  unfold vadd. now rewrite map_map2.
Qed.

Lemma length_mean_halves embed_size (w : vec) :
  length w = (2 * embed_size)%nat ->
  length (map2 (fun a b => (a + b) / 2) (firstn embed_size w) (skipn embed_size w))
  = embed_size.
Proof. intros Hw. rewrite map2_length, length_firstn, length_skipn. lia. Qed.

(** C6: on a well-formed caption batch (word ids below [vocab_size],
    one valid length per caption) [EncoderText.forward] returns word
    embeddings of width [embed_size] in both GRU modes; in the
    bidirectional mode they are the mean of the two halves (each of width
    [embed_size]) of the GRU output, and when [image_norm] is set every
    word embedding is passed through [l2norm]. *)
Theorem EncoderText_forward_embed_size (name : string)
    (vocab_size word_dim embed_size num_layers n_caption max_len : nat)
    (use_bi_gru image_norm : bool)
    (captions : list (list nat)) (lengths : list nat) (g : RNG) :
  GRU_contract ->
  (1 <= vocab_size)%nat -> (1 <= word_dim)%nat -> (1 <= embed_size)%nat ->
  (1 <= num_layers)%nat ->
  token_batch vocab_size n_caption max_len captions lengths ->
  let self := EncoderText_init name vocab_size word_dim embed_size num_layers
                use_bi_gru image_norm in
  exists (cap_emb : tensor3) (g' : RNG),
    Dropout3 (4 / 10) (map (map (fun id => nth id (et_embed self) [])) captions) g
    = inr (cap_emb, g')
    /\ let rnn := et_cap_rnn self cap_emb lengths in
       let halves :=
         if use_bi_gru
         then map (map (fun w => map2 (fun a b => (a + b) / 2)
                                      (firstn embed_size w) (skipn embed_size w))) rnn
         else rnn in
       let out := if image_norm then map (map l2norm) halves else halves in
       EncoderText_forward self captions lengths g = inr (out, g')
       /\ Forall2 (fun c o => length o = length c /\ rect embed_size o) captions out
       /\ (use_bi_gru = true -> rect3 (2 * embed_size) rnn).
Proof.
  intros Hgru _ _ _ _ (Hnc & Hml & Hcl & Hcs & _ & _) self.
  assert (Hne : captions <> []).
  { intros Ec. rewrite Ec in Hcl. simpl in Hcl. lia. }
  assert (Hne' : hd [] captions <> []).
  { destruct captions as [|c cs]; [congruence|]. simpl.
    destruct (Forall_inv Hcs) as [Hc _]. intros Ec. rewrite Ec in Hc. simpl in Hc. lia. }
  destruct (Dropout3_total (4 / 10)
              (map (map (fun id => nth id (et_embed self) [])) captions) g)
    as (cap_emb & g' & E & Hshape).
  exists cap_emb, g'. split; [exact E|].
  intros rnn halves out.
  assert (Hcap : Forall2 (fun (c : list nat) (x : list (list R)) => length x = length c)
                         captions cap_emb).
  { apply Forall2_weaken_length in Hshape.
    assert (H0 : Forall2 (fun (c : list nat) (x : list (list R)) => length x = length c)
                   captions (map (map (fun id => nth id (et_embed self) [])) captions)).
    { apply Forall2_map_r, Forall_forall. intros c _. apply length_map. }
    eapply Forall2_compose; [|exact H0|exact Hshape].
    simpl. intros; congruence. }
  set (dir := (if use_bi_gru then "bidirectional" else "forward")%string).
  assert (Hrnn : Forall2 (fun (c : list nat) o =>
                            length o = length c /\ rect (num_directions dir * embed_size) o)
                         captions rnn).
  { eapply Forall2_compose; [|exact Hcap|apply (Hgru word_dim embed_size num_layers dir)].
    simpl. intros c x o H1 [H2 H3]. split; [congruence | exact H3]. }
  assert (Hrnn_ne : rnn <> [] /\ hd [] rnn <> []).
  { destruct Hrnn as [|c o cs os [Hl _] _]; [congruence|]. simpl in *.
    split; [discriminate|]. intros Eo. rewrite Eo in Hl. simpl in Hl.
    destruct c; [congruence | discriminate]. }
  assert (Hhalves : (if String.eqb (et_use_bi_gru self) "bidirectional"
                     then average_halves rnn else rnn) = halves
                    /\ Forall2 (fun (c : list nat) o => length o = length c /\ rect embed_size o)
                               captions halves
                    /\ (use_bi_gru = true -> rect3 (2 * embed_size) rnn)).
  { unfold halves. simpl et_use_bi_gru. fold dir. destruct use_bi_gru; simpl in dir.
    - assert (Hr2 : rect3 (2 * embed_size) rnn).
      { unfold rect3.
        apply (@Forall2_Forall_r (list nat) _ (rect (2 * embed_size)) captions rnn).
        eapply Forall2_impl; [|exact Hrnn]. now intros c o [_ Hr]. }
      split; [|split; [|intros _; exact Hr2]].
      + change (String.eqb dir "bidirectional") with true. cbv iota.
        destruct Hrnn_ne as [Hn1 Hn2]. now apply average_halves_mean.
      + eapply Forall2_map_right; [|exact Hrnn].
        simpl. intros c o [Hl Hr]. rewrite length_map. split; [exact Hl|].
        unfold rect in *. apply Forall_map. eapply Forall_impl; [|exact Hr].
        intros w Hw. simpl. now apply length_mean_halves.
    - split; [reflexivity|]. split; [|discriminate].
      eapply Forall2_impl; [|exact Hrnn]. simpl. intros c o [Hl Hr].
      split; [exact Hl|]. now rewrite Nat.add_0_r in Hr. }
  destruct Hhalves as (Eh & Hh & Hbi).
  split; [|split; [|exact Hbi]].
  - unfold EncoderText_forward. rewrite (bind_inr _ E). cbv zeta.
    fold rnn. rewrite Eh. reflexivity.
  - unfold out. destruct image_norm; [|exact Hh].
    eapply Forall2_map_right; [|exact Hh].
    simpl. intros c o [Hl Hr]. rewrite length_map. split; [exact Hl|].
    apply rect_map_rows; [apply length_l2norm | exact Hr].
Qed.

(** ** The similarity encoder *)

Lemma length_SA_weights common_w (l_emb : tensor3) (g_emb : mat) :
  length (SA_weights common_w l_emb g_emb) = Nat.min (length l_emb) (length g_emb).
Proof.
  unfold SA_weights, Linear3. now rewrite !length_map, map2_length, length_map.
Qed.

Lemma length_SA_pool (weights : mat) (local : tensor3) :
  length (SA_pool weights local) = Nat.min (length weights) (length local).
Proof. unfold SA_pool. now rewrite length_map, map2_length. Qed.

Lemma SA_tail_total p q common_w (X local : tensor3) (Y : mat) g :
  length X = length local -> length Y = length local ->
  exists out g',
    (weights <- (l_emb <- Dropout3 p X ;; g_emb <- Dropout2 q Y ;;
                 ret (SA_weights common_w l_emb g_emb)) ;;
     ret (SA_pool weights local)) g = inr (out, g')
    /\ length out = length local.
Proof.
  intros HX HY.
  destruct (Dropout3_total p X g) as (l_emb & g1 & E1 & S1).
  destruct (Dropout2_total q Y g1) as (g_emb & g2 & E2 & S2).
  exists (SA_pool (SA_weights common_w l_emb g_emb) local), g2. split.
  - unfold bind at 1. rewrite (bind_inr _ E1), (bind_inr _ E2). reflexivity.
  - rewrite length_SA_pool, length_SA_weights.
    rewrite (Forall2_length_eq S1), (Forall2_length_eq S2). lia.
Qed.

Lemma VisualSA_forward_total self (local : tensor3) (raw_global : mat) g :
  length raw_global = length local ->
  exists out g', VisualSA_forward self local raw_global g = inr (out, g')
                 /\ length out = length local.
Proof.
  intros H. unfold VisualSA_forward, VisualSA_weights. apply SA_tail_total.
  - unfold BatchNorm1D_forward3, Linear3. now rewrite !length_map.
  - unfold BatchNorm1D_forward2, Linear2. now rewrite !length_map.
Qed.

Lemma TextSA_forward_total self (local : tensor3) (raw_global : mat) g :
  length raw_global = length local ->
  exists out g', TextSA_forward self local raw_global g = inr (out, g')
                 /\ length out = length local.
Proof.
  intros H. unfold TextSA_forward, TextSA_weights. apply SA_tail_total.
  - unfold Linear3. now rewrite !length_map.
  - unfold Linear2. now rewrite !length_map.
Qed.

Lemma length_concat_repeat1 {A} (x : A) n : length (concat (repeat [x] n)) = n.
Proof. induction n; simpl; auto. Qed.

Lemma length_GraphReasoning_forward self (sim_emb : tensor3) :
  length (GraphReasoning_forward self sim_emb) = length sim_emb.
Proof.
  unfold GraphReasoning_forward, GraphReasoning_propagate, bmm.
  rewrite GraphReasoning_edge_map, map2_map_id. now rewrite !length_map.
Qed.

Lemma length_SGR_fold (layers : list GraphReasoning) (sim_emb : tensor3) :
  length (fold_left (fun emb l => GraphReasoning_forward l emb) layers sim_emb)
  = length sim_emb.
Proof.
  revert sim_emb; induction layers as [|l layers IH]; intros sim_emb; simpl; [reflexivity|].
  now rewrite IH, length_GraphReasoning_forward.
Qed.

Lemma length_AttentionFiltration_forward self (sim_emb : tensor3) :
  length (AttentionFiltration_forward self sim_emb) = length sim_emb.
Proof.
  unfold AttentionFiltration_forward, bmm, BatchNorm1D_forward3, transpose021, Linear3.
  rewrite length_map, map2_length, !length_map. lia.
Qed.

(** With the attribute that [module_name] selects in place, the final
    similarity vectors are returned, one per image. *)
Lemma final_sim_vec_total sim_dim self (sim_emb : tensor3) :
  EncoderSimilarity_wf sim_dim self ->
  exists sim_vec, final_sim_vec self sim_emb = inr sim_vec
                  /\ length sim_vec = length sim_emb.
Proof.
  intros [_ Hmod]. unfold final_sim_vec.
  destruct (sim_module self) as [layers|layer].
  - destruct Hmod as [-> Hnamed].
    change (String.eqb "SGR" "SGR") with true. cbv iota.
    rewrite (SGR_reason_fold _ Hnamed). eexists. split; [reflexivity|].
    now rewrite length_map, length_SGR_fold.
  - apply String.eqb_neq in Hmod. rewrite Hmod.
    eexists. split; [reflexivity|]. apply length_AttentionFiltration_forward.
Qed.

Lemma caption_sim_emb_total self (img_emb : tensor3) (img_glo : mat) cap_emb cap_lens i g :
  length img_glo = length img_emb ->
  exists sim_emb g',
    caption_sim_emb self img_emb img_glo cap_emb cap_lens i g = inr (sim_emb, g')
    /\ length sim_emb = length img_emb.
Proof.
  intros Hglo. unfold caption_sim_emb. cbv zeta.
  edestruct (TextSA_forward_total (t_global_w self)
               [firstn (nth i cap_lens 0%nat) (nth i cap_emb [])]
               (map mean_rows [firstn (nth i cap_lens 0%nat) (nth i cap_emb [])]) g)
    as (cap_glo & g' & E & _); [reflexivity|].
  rewrite (bind_inr _ E). eexists _, g'. split; [reflexivity|].
  unfold concat1, unsqueeze1, subtract_bcast, subtract3, SCAN_attention, Linear2, Linear3.
  simpl fold_left.
  rewrite !map2_length, !length_map, !map2_length, length_concat_repeat1, <- Hglo. lia.
Qed.

Lemma caption_sim_vec_total sim_dim self (img_emb : tensor3) (img_glo : mat)
    cap_emb cap_lens i g :
  EncoderSimilarity_wf sim_dim self -> length img_glo = length img_emb ->
  exists sim_vec g',
    caption_sim_vec self img_emb img_glo cap_emb cap_lens i g = inr (sim_vec, g')
    /\ length sim_vec = length img_emb.
Proof.
  intros Hwf Hglo. unfold caption_sim_vec.
  destruct (@caption_sim_emb_total self img_emb img_glo cap_emb cap_lens i g Hglo)
    as (sim_emb & g' & E & Hl).
  destruct (final_sim_vec_total sim_emb Hwf) as (sim_vec & Ev & Hlv).
  exists sim_vec, g'. rewrite (bind_inr _ E). unfold lift. rewrite Ev.
  split; [reflexivity | congruence].
Qed.

Lemma mapM_ret_map {A B C} (f : A -> M B) (h : B -> C) xs g ys g' :
  mapM f xs g = inr (ys, g') ->
  mapM (fun x => y <- f x ;; ret (h y)) xs g = inr (map h ys, g').
Proof.
  revert g ys g'. induction xs as [|x xs IH]; simpl; intros g ys g' E.
  - injection E as <- <-. reflexivity.
  - unfold bind in E. destruct (f x g) as [e|[y g1]] eqn:E1; [discriminate|].
    destruct (mapM f xs g1) as [e|[ys1 g2]] eqn:E2; [discriminate|].
    injection E as <- <-.
    unfold bind at 1. unfold bind at 1. rewrite E1. cbv beta iota delta [ret].
    rewrite (bind_inr _ (IH _ _ _ E2)). reflexivity.
Qed.

(** Gluing matrices of [n] rows along axis 1 glues their rows. *)
Lemma concat1_rows n (t : mat) (rest : list mat) :
  Forall (fun m => length m = n) (t :: rest) ->
  concat1 (t :: rest)
  = map (fun j => concat (map (fun m => nth j m []) (t :: rest))) (seq 0 n).
Proof.
  unfold concat1. revert t. induction rest as [|r rest IH]; intros t Hn.
  - pose proof (Forall_inv Hn) as Ht. simpl in Ht. simpl.
    apply (nth_ext _ _ [] []); [now rewrite length_map, length_seq|].
    intros j Hj. rewrite Ht in Hj.
    rewrite (nth_map_lt _ _ 0%nat) by now rewrite length_seq.
    rewrite seq_nth by exact Hj. simpl. now rewrite app_nil_r.
  - pose proof (Forall_inv Hn) as Ht. pose proof (Forall_inv_tail Hn) as Hn'.
    pose proof (Forall_inv Hn') as Hr. pose proof (Forall_inv_tail Hn') as Hn''.
    simpl in Ht, Hr. simpl fold_left. rewrite IH.
    + apply map_ext_in. intros j Hj. apply in_seq in Hj. simpl.
      rewrite (nth_map2 (@app R) t r [] [] []) by lia.
      now rewrite app_assoc.
    + constructor; [|exact Hn'']. rewrite map2_length. lia.
Qed.

Lemma concat_singletons {A B} (f : A -> B) xs : concat (map (fun x => [f x]) xs) = map f xs.
Proof. induction xs; simpl; f_equal; auto. Qed.

Lemma map_singleton (f : R -> R) (l : vec) :
  length l = 1%nat -> map f l = [f (nth 0 l 0)].
Proof. destruct l as [|x [|y l]]; simpl; intros H; try discriminate. reflexivity. Qed.

(** The columns of the similarity matrix: with the selected module in place
    and at least one caption, every entry is the sigmoid of the scoring
    layer applied to a final similarity vector. *)
Lemma EncoderSimilarity_forward_entries (sim_dim : nat) (self : EncoderSimilarity)
    (img_emb cap_emb : tensor3) (cap_lens : list nat) (g : RNG) :
  (1 <= sim_dim)%nat -> EncoderSimilarity_wf sim_dim self -> cap_emb <> [] ->
  exists (img_glo : mat) (g1 : RNG) (vecs : list mat) (sims : mat) (g' : RNG),
    VisualSA_forward (v_global_w self) img_emb (map mean_rows img_emb) g = inr (img_glo, g1)
    /\ mapM (caption_sim_vec self img_emb img_glo cap_emb cap_lens)
            (seq 0 (length cap_emb)) g1 = inr (vecs, g')
    /\ EncoderSimilarity_forward self img_emb cap_emb cap_lens g = inr (sims, g')
    /\ length vecs = length cap_emb
    /\ Forall (fun v => length v = length img_emb) vecs
    /\ sims = map (fun j =>
                     map (fun v => sigmoid (nth 0 (Linear_forward (sim_eval_w self)
                                                                  (nth j v [])) 0)) vecs)
                  (seq 0 (length img_emb)).
Proof.
  intros Hdim Hwf Hne.
  destruct (VisualSA_forward_total (v_global_w self) img_emb (map mean_rows img_emb) g)
    as (img_glo & g1 & E0 & Hglo); [apply length_map|].
  destruct (mapM_total (caption_sim_vec self img_emb img_glo cap_emb cap_lens)
              (fun _ v => length v = length img_emb) (seq 0 (length cap_emb))
              (fun i g0 _ => @caption_sim_vec_total sim_dim self img_emb img_glo
                               cap_emb cap_lens i g0 Hwf Hglo) g1)
    as (vecs & g' & Ev & Hvecs).
  pose proof (Forall2_length_eq Hvecs) as Hlv. rewrite length_seq in Hlv.
  apply Forall2_Forall_r in Hvecs.
  set (h := fun v : list (list R) => map (map sigmoid) (Linear2 (sim_eval_w self) v)).
  set (score := fun (j : nat) (v : list (list R)) =>
                  sigmoid (nth 0 (Linear_forward (sim_eval_w self) (nth j v [])) 0)).
  assert (Esims : concat1 (map h vecs)
                  = map (fun j => map (score j) vecs) (seq 0 (length img_emb))).
  { destruct vecs as [|v0 rest] eqn:Evs.
    { simpl in Hlv. destruct cap_emb; [congruence | discriminate]. }
    rewrite <- Evs in *. assert (Emap : map h vecs = h v0 :: map h rest) by now rewrite Evs.
    rewrite Emap. rewrite (@concat1_rows (length img_emb)).
    - rewrite <- Emap. apply map_ext_in. intros j Hj. apply in_seq in Hj.
      rewrite map_map. rewrite <- (concat_singletons (score j)). f_equal.
      apply map_ext_in. intros v Hv.
      rewrite Forall_forall in Hvecs. pose proof (Hvecs v Hv) as Hl.
      unfold h, Linear2. rewrite map_map.
      rewrite (nth_map_lt _ v [] []) by lia.
      apply map_singleton. destruct Hwf as [Hs _].
      now apply length_Linear_forward with sim_dim.
    - rewrite <- Emap. apply Forall_map. eapply Forall_impl; [|exact Hvecs].
      intros v Hl. unfold h, Linear2. now rewrite !length_map. }
  exists img_glo, g1, vecs, (concat1 (map h vecs)), g'.
  split; [exact E0|]. split; [exact Ev|]. split.
  { unfold EncoderSimilarity_forward. cbv zeta. rewrite (bind_inr _ E0).
    unfold caption_sim.
    rewrite (bind_inr _ (mapM_ret_map _ h _ _ Ev)). reflexivity. }
  split; [exact Hlv|]. split; [exact Hvecs|]. exact Esims.
Qed.


(** ** What construction establishes *)

Lemma Linear_init_shape name n_in n_out : Linear_shape n_in n_out (Linear_init name n_in n_out).
Proof.
  unfold Linear_shape, Linear_init. simpl. repeat split.
  - now rewrite length_map, length_seq.
  - unfold rect. apply Forall_map, Forall_forall. intros i _.
    now rewrite length_map, length_seq.
  - now rewrite length_map, length_seq.
Qed.

Lemma EncoderSimilarity_init_wf name embed_size sim_dim module_name sgr_step self :
  EncoderSimilarity_init name embed_size sim_dim module_name sgr_step = inr self ->
  EncoderSimilarity_wf sim_dim self.
Proof.
  intros E. destruct (String.eqb_spec module_name "SGR") as [->|Hn].
  - destruct (EncoderSimilarity_init_SGR E) as (Hname & Heval & Hmod).
    unfold EncoderSimilarity_wf. rewrite Heval, Hmod. split; [apply Linear_init_shape|].
    split; [exact Hname|].
    unfold SGR_named. now rewrite map_map, length_map, length_seq.
  - unfold EncoderSimilarity_init in E.
    apply String.eqb_neq in Hn. rewrite Hn in E.
    destruct (String.eqb module_name "SAF"); [|discriminate].
    injection E as <-. unfold EncoderSimilarity_wf. simpl.
    split; [apply Linear_init_shape|]. now apply String.eqb_neq.
Qed.

Lemma BatchNorm1D_init_shape n : BatchNorm1D_shape n (BatchNorm1D_init n).
Proof.
  unfold BatchNorm1D_shape, BatchNorm1D_init. simpl. rewrite !repeat_length.
  repeat split. apply Forall_forall. intros v Hv. apply repeat_spec in Hv. lra.
Qed.

Lemma VisualSA_init_shape name embed_dim num_region :
  VisualSA_shape embed_dim num_region (VisualSA_init name embed_dim (4 / 10) num_region).
Proof.
  unfold VisualSA_shape, VisualSA_init. simpl.
  repeat split; try apply Linear_init_shape; try apply BatchNorm1D_init_shape; lra.
Qed.

Lemma TextSA_init_shape name embed_dim :
  TextSA_shape embed_dim (TextSA_init name embed_dim (4 / 10)).
Proof.
  unfold TextSA_shape, TextSA_init. simpl.
  repeat split; try apply Linear_init_shape; lra.
Qed.

Lemma GraphReasoning_init_shape name sim_dim :
  GraphReasoning_shape sim_dim (GraphReasoning_init name sim_dim).
Proof. unfold GraphReasoning_shape, GraphReasoning_init. simpl. repeat split; apply Linear_init_shape. Qed.

(** [EncoderSimilarity.__init__] gives every layer its shape; the region
    count of the visual self-attention is the constant 36 of line 206. *)
Lemma EncoderSimilarity_init_shape name embed_size sim_dim mode sgr_step self :
  EncoderSimilarity_init name embed_size sim_dim mode sgr_step = inr self ->
  EncoderSimilarity_shape embed_size sim_dim 36 self.
Proof.
  intros E. pose proof (EncoderSimilarity_init_wf _ _ _ _ _ E) as Hwf.
  unfold EncoderSimilarity_shape.
  destruct (String.eqb_spec mode "SGR") as [->|Hn].
  - destruct (EncoderSimilarity_init_SGR E) as (_ & _ & Hmod).
    unfold EncoderSimilarity_init in E. rewrite String.eqb_refl in E. injection E as E.
    rewrite Hmod. rewrite <- E. simpl.
    split; [apply VisualSA_init_shape|]. split; [apply TextSA_init_shape|].
    split; [apply Linear_init_shape|]. split; [apply Linear_init_shape|].
    split; [rewrite E; exact Hwf|].
    rewrite map_map. apply Forall_map, Forall_forall. intros i _. simpl.
    apply GraphReasoning_init_shape.
  - unfold EncoderSimilarity_init in E.
    apply String.eqb_neq in Hn. rewrite Hn in E.
    destruct (String.eqb mode "SAF"); [|discriminate].
    injection E as E. rewrite <- E at 1 2 3 4 6. simpl.
    split; [apply VisualSA_init_shape|]. split; [apply TextSA_init_shape|].
    split; [apply Linear_init_shape|]. split; [apply Linear_init_shape|].
    split; [exact Hwf|].
    split; [apply Linear_init_shape | apply BatchNorm1D_init_shape].
Qed.

(** ** Shapes along the pipeline *)

Lemma Forall2_map2_l {A B C} (P : A -> C -> Prop) (f : A -> B -> C) xs ys :
  length xs = length ys ->
  (forall x y, In x xs -> In y ys -> P x (f x y)) ->
  Forall2 P xs (map2 f xs ys).
Proof.
  revert ys; induction xs as [|x xs IH]; intros [|y ys] Hl H; simpl in *;
    try discriminate; constructor.
  - apply H; now left.
  - apply IH; [now injection Hl|]. intros x' y' Hx Hy. apply H; now right.
Qed.

Lemma In_map2_gen {A B C} (f : A -> B -> C) xs ys z :
  In z (map2 f xs ys) -> exists x y, z = f x y.
Proof.
  revert ys; induction xs as [|x xs IH]; intros [|y ys]; simpl; try contradiction.
  intros [<-|Hin]; [now exists x, y | exact (IH ys Hin)].
Qed.

Lemma rect_Linear2 n_in n_out l (m : mat) :
  Linear_shape n_in n_out l -> (1 <= n_in)%nat -> rect n_out (Linear2 l m).
Proof.
  intros Hl Hin. unfold rect, Linear2. apply Forall_map, Forall_forall. intros x _.
  now apply length_Linear_forward with n_in.
Qed.

(** On a batch of [n_image] images of [n_region] region features of width
    [img_dim], and a fully connected layer from [img_dim] to [embed_size]
    features, [EncoderImage.forward] returns, leaves the random source
    alone and maps every region to an embedding of width [embed_size],
    keeping the number of images and of regions, with and without
    normalisation. *)
Theorem EncoderImage_forward_shape (n_image n_region : nat) (self : EncoderImage)
    (images : tensor3) (g : RNG) :
  Linear_shape (ei_img_dim self) (ei_embed_size self) (ei_fc self) ->
  (1 <= ei_img_dim self)%nat -> (1 <= ei_embed_size self)%nat ->
  (1 <= n_image)%nat -> (1 <= n_region)%nat ->
  tensor_shape n_image n_region (ei_img_dim self) images ->
  exists img_emb,
    EncoderImage_forward self images g = inr (img_emb, g)
    /\ tensor_shape n_image n_region (ei_embed_size self) img_emb
    /\ Forall2 (fun image emb => length emb = length image
                                 /\ rect (ei_embed_size self) emb) images img_emb.
Proof.
  intros Hs Hd _ _ _ [Hn Himg]. unfold EncoderImage_forward. eexists. split; [reflexivity|].
  assert (H2 : Forall2 (fun image emb => length emb = length image
                                         /\ rect (ei_embed_size self) emb) images
                 (if ei_image_norm self then map (map l2norm) (Linear3 (ei_fc self) images)
                  else Linear3 (ei_fc self) images)).
  { destruct (ei_image_norm self).
    - unfold Linear3. rewrite map_map. apply Forall2_map_r, Forall_forall. intros im _.
      split; [unfold Linear2; rewrite !length_map; reflexivity|].
      apply rect_map_rows; [apply length_l2norm|].
      now apply rect_Linear2 with (ei_img_dim self).
    - unfold Linear3. apply Forall2_map_r, Forall_forall. intros im _.
      split; [apply length_map|]. now apply rect_Linear2 with (ei_img_dim self). }
  split; [|exact H2]. split.
  - rewrite (Forall2_length_eq H2). exact Hn.
  - clear Hn. revert H2.
    generalize (if ei_image_norm self then map (map l2norm) (Linear3 (ei_fc self) images)
                else Linear3 (ei_fc self) images).
    induction Himg as [|im images [Hl _] _ IH]; intros out H2; inversion_clear H2;
      constructor.
    + destruct H as [E R]. split; [congruence | exact R].
    + now apply IH.
Qed.

Lemma SCAN_attention1_shape d (query context : mat) smooth :
  (1 <= d)%nat -> query <> [] -> rect d query -> context <> [] -> rect d context ->
  length (SCAN_attention1 query context smooth) = length query
  /\ rect d (SCAN_attention1 query context smooth).
Proof.
  intros Hd Hq Hqr Hc Hcr. unfold SCAN_attention1.
  rewrite (SCAN_context1_weighted smooth Hd Hq Hqr Hc Hcr).
  destruct (SCAN_weights1_shape smooth Hd Hq Hqr Hc) as [Hl _].
  split; [now rewrite !length_map|].
  unfold rect. rewrite map_map. apply Forall_map, Forall_forall. intros w _.
  rewrite length_l2norm. now apply length_weighted_sum.
Qed.

(** [SCAN_attention] returns a tensor of the shape of the query: for every
    pair of the batch as many rows as query positions, each of the feature
    width [d] of query and context. *)
Theorem SCAN_attention_shape (d : nat) (query context : tensor3) (smooth eps' : R) :
  (1 <= d)%nat -> length query = length context ->
  Forall (fun q => q <> [] /\ rect d q) query ->
  Forall (fun c => c <> [] /\ rect d c) context ->
  Forall2 (fun q out => length out = length q /\ rect d out)
          query (SCAN_attention query context smooth eps').
Proof.
  intros Hd Hl Hq Hc. unfold SCAN_attention. apply Forall2_map2_l; [exact Hl|].
  intros q c Hqin Hcin. rewrite Forall_forall in Hq, Hc.
  destruct (Hq q Hqin) as [Hq1 Hq2]. destruct (Hc c Hcin) as [Hc1 Hc2].
  now apply SCAN_attention1_shape.
Qed.

Lemma GraphReasoning_forward_graphs d self (sim_emb : tensor3) :
  (1 <= d)%nat -> GraphReasoning_shape d self ->
  Forall2 (fun g out => length out = length g /\ rect d out
                        /\ Forall (Forall (fun x => 0 <= x)) out)
          sim_emb (GraphReasoning_forward self sim_emb).
Proof.
  intros Hd (_ & _ & Hg).
  unfold GraphReasoning_forward, GraphReasoning_propagate, bmm.
  rewrite GraphReasoning_edge_map, map2_map_id, map_map.
  apply Forall2_map_r, Forall_forall. intros g _. repeat split.
  - unfold edge1, matmul, Linear2. now rewrite !length_map.
  - unfold rect. apply Forall_map, Forall_forall. intros node _.
    rewrite length_map. now apply length_Linear_forward with d.
  - apply Forall_map, Forall_forall. intros node _.
    apply Forall_map, Forall_forall. intros x _. apply relu_nonneg.
Qed.

(** Graph reasoning can be iterated: after any positive number of
    [GraphReasoning] layers of width [sim_dim] every graph still has its
    nodes, one output node per input node, every node has width [sim_dim],
    and no entry is negative. *)
Theorem SGR_steps_keep_graph_shape (d : nat) (layers : list GraphReasoning)
    (sim_emb : tensor3) :
  (1 <= d)%nat -> layers <> [] -> Forall (GraphReasoning_shape d) layers ->
  Forall2 (fun g out => length out = length g /\ rect d out
                        /\ Forall (Forall (fun x => 0 <= x)) out)
          sim_emb
          (fold_left (fun emb l => GraphReasoning_forward l emb) layers sim_emb).
Proof.
  intros Hd Hne Hs. revert sim_emb.
  induction layers as [|l layers IH]; [congruence|]. intros sim_emb.
  pose proof (Forall_inv Hs) as Hl. pose proof (Forall_inv_tail Hs) as Hs'.
  pose proof (GraphReasoning_forward_graphs sim_emb Hd Hl) as H1.
  destruct layers as [|l2 layers]; [exact H1|].
  simpl fold_left at 1.
  eapply Forall2_compose; [|exact H1|apply IH; [discriminate | exact Hs']].
  simpl. intros g mid out (E1 & _ & _) (E2 & R2 & P2). repeat split; congruence || assumption.
Qed.

(** The attention of [SCAN_attention] is soft: whatever the inputs, every
    source position receives a strictly positive weight from every query
    position, so no context vector is ever left out of the combination. *)
Theorem SCAN_weights_strictly_positive (query context : tensor3) (smooth : R) :
  Forall (Forall (Forall (fun x => 0 < x))) (SCAN_weights query context smooth).
Proof.
  unfold SCAN_weights. apply Forall_forall. intros w Hin.
  apply In_map2_gen in Hin as (q & c & ->).
  unfold SCAN_weights1. apply Forall_map, Forall_forall. intros row _. apply softmax_pos.
Qed.

(** ** Weighted sums stay between the extremes *)

Lemma weighted_values_bounds (w v : vec) a b :
  length w = length v -> Forall (fun x => 0 <= x) w ->
  Forall (fun y => a <= y <= b) v ->
  a * Rsum w <= Rsum (map2 Rmult w v) <= b * Rsum w.
Proof.
  revert v; induction w as [|x w IH]; intros [|y v] Hl Hw Hv; simpl in *;
    try discriminate; [lra|].
  pose proof (Forall_inv Hw) as Hx. pose proof (Forall_inv Hv) as Hy.
  destruct (IH v) as [IH1 IH2];
    [now injection Hl | exact (Forall_inv_tail Hw) | exact (Forall_inv_tail Hv) |].
  fold (Rsum w). fold (Rsum (map2 Rmult w v)). simpl in Hx, Hy. nra.
Qed.

Lemma weighted_sum_coordinate_bounds d k a b (w : vec) (rows : mat) :
  prob_vector (length rows) w -> rect d rows -> (k < d)%nat ->
  Forall (fun r => a <= nth k r 0 <= b) rows ->
  a <= nth k (weighted_sum w rows) 0 <= b.
Proof.
  intros (Hl & Hpos & Hsum) Hr Hk Hb.
  destruct rows as [|r0 rows'] eqn:E.
  { simpl in Hl. destruct w; [|discriminate]. simpl in Hsum. lra. }
  rewrite <- E in *.
  assert (Hne : rows <> []) by (rewrite E; discriminate).
  unfold weighted_sum. rewrite (ncols_rect Hne Hr), (nth_vsum_scaled w Hr Hk).
  destruct (@weighted_values_bounds w (map (fun r => nth k r 0) rows) a b) as [H1 H2].
  - now rewrite length_map.
  - exact Hpos.
  - apply Forall_map. exact Hb.
  - rewrite Hsum in H1, H2. lra.
Qed.

(** Propagation over the graph cannot leave the range of the inputs: if
    coordinate [k] of every node of every graph lies in [[a, b]], so does
    coordinate [k] of every propagated node (line 166, before the output
    layer). *)
Theorem GraphReasoning_propagate_in_range (d k : nat) (a b : R) (self : GraphReasoning)
    (sim_emb : tensor3) :
  (1 <= d)%nat -> GraphReasoning_shape d self -> (k < d)%nat ->
  Forall (fun g => g <> [] /\ rect d g) sim_emb ->
  Forall (Forall (fun node => a <= nth k node 0 <= b)) sim_emb ->
  Forall (Forall (fun node => a <= nth k node 0 <= b))
         (GraphReasoning_propagate self sim_emb).
Proof.
  intros Hd Hs Hk Hg Hb.
  unfold GraphReasoning_propagate, bmm. rewrite GraphReasoning_edge_map, map2_map_id.
  apply Forall_map, Forall_forall. intros g Hin.
  rewrite Forall_forall in Hg, Hb. destruct (Hg g Hin) as [Hne Hr]. specialize (Hb g Hin).
  destruct (edge1_stochastic Hd Hs Hne) as [_ Hst].
  unfold matmul. apply Forall_map.
  eapply Forall_impl; [|exact Hst]. intros w Hw. simpl.
  rewrite (dot_transpose_weighted_sum w Hr).
  now apply weighted_sum_coordinate_bounds with d.
Qed.

(** The weighted context of [SCAN_attention], before its normalisation,
    stays coordinate by coordinate between the extremes of the context
    vectors (lines 294-302). *)
Theorem SCAN_context_in_range (d k : nat) (a b : R) (query context : mat) (smooth : R) :
  (1 <= d)%nat -> (k < d)%nat ->
  query <> [] -> rect d query -> context <> [] -> rect d context ->
  Forall (fun c => a <= nth k c 0 <= b) context ->
  Forall (fun row => a <= nth k row 0 <= b) (SCAN_context1 query context smooth).
Proof.
  intros Hd Hk Hq Hqr Hc Hcr Hb.
  rewrite (SCAN_context1_weighted smooth Hd Hq Hqr Hc Hcr).
  destruct (SCAN_weights1_shape smooth Hd Hq Hqr Hc) as [_ Hst].
  apply Forall_map. eapply Forall_impl; [|exact Hst]. intros w Hw. simpl.
  now apply weighted_sum_coordinate_bounds with d.
Qed.

(** ** Self-attention pooling: shape and the one-position case *)

Lemma SA_pool_shape n d (weights : mat) (local : tensor3) :
  (1 <= n)%nat -> length weights = length local -> row_stochastic n weights ->
  Forall (fun l => length l = n /\ rect d l) local ->
  length (SA_pool weights local) = length local /\ rect d (SA_pool weights local).
Proof using Type.
  intros Hn Hl Hw Hloc. split; [rewrite length_SA_pool; lia|].
  rewrite (SA_pool_weighted Hn Hw Hloc). clear Hw.
  revert weights Hl. induction Hloc as [|l local [Hll Hr] _ IH]; intros [|w weights] Hl;
    simpl in *; try discriminate; constructor.
  - rewrite length_l2norm. apply length_weighted_sum; [|exact Hr].
    intros E; rewrite E in Hll; simpl in Hll; lia.
  - apply IH. now injection Hl.
Qed.

(** On well-shaped inputs ([n_sample >= 1] samples of [n >= 1] local
    vectors of width [d >= 1], one raw global vector of width [d] per
    sample) and layers of the shapes their constructors give them,
    [VisualSA.forward] and [TextSA.forward] return one global vector per
    sample, of the feature width [d] of the local vectors, in training and
    in evaluation mode. *)
Theorem SA_forward_shape (n_sample n d : nat) (vsa : VisualSA) (tsa : TextSA)
    (local : tensor3) (raw_global : mat) (g : RNG) :
  (1 <= n_sample)%nat -> (1 <= n)%nat -> (1 <= d)%nat ->
  VisualSA_shape d n vsa -> TextSA_shape d tsa ->
  tensor_shape n_sample n d local ->
  length raw_global = n_sample -> rect d raw_global ->
  (exists out g', VisualSA_forward vsa local raw_global g = inr (out, g')
                  /\ length out = n_sample /\ rect d out)
  /\ (exists out g', TextSA_forward tsa local raw_global g = inr (out, g')
                     /\ length out = n_sample /\ rect d out).
Proof.
  intros _ Hn _ _ _ [Hbatch Hloc] Hraw _. rewrite <- Hbatch.
  assert (Hlen : length raw_global = length local) by congruence.
  assert (Hrows : Forall (fun l : list (list R) => length l = n) local).
  { eapply Forall_impl; [|exact Hloc]. now intros l [H _]. }
  split.
  - unfold VisualSA_forward, VisualSA_weights.
    edestruct (@SA_scores_total n (vsa_dropout_rate vsa) (vsa_dropout_rate vsa) (vsa_common vsa))
      as (w & g' & E & Hl & Hs); [exact Hn | | | ].
    3: { rewrite (bind_inr _ E). eexists _, g'. split; [reflexivity|].
         apply SA_pool_shape with n; try assumption.
         rewrite Hl. unfold BatchNorm1D_forward3, Linear3. now rewrite !length_map. }
    + apply Forall_length_map_rows; [intros; apply length_map|].
      eapply Forall_Forall2_length; [|apply BatchNorm1D_forward3_rows].
      unfold Linear3. apply Forall_length_map_rows; [intros; apply length_map|]. exact Hrows.
    + unfold BatchNorm1D_forward2, BatchNorm1D_forward3, Linear2, Linear3.
      rewrite !length_map. exact Hlen.
  - unfold TextSA_forward, TextSA_weights.
    edestruct (@SA_scores_total n (tsa_dropout_rate tsa) (tsa_dropout_rate tsa) (tsa_common tsa))
      as (w & g' & E & Hl & Hs); [exact Hn | | | ].
    3: { rewrite (bind_inr _ E). eexists _, g'. split; [reflexivity|].
         apply SA_pool_shape with n; try assumption.
         rewrite Hl. unfold Linear3. now rewrite !length_map. }
    + apply Forall_length_map_rows; [intros; apply length_map|].
      unfold Linear3. apply Forall_length_map_rows; [intros; apply length_map|]. exact Hrows.
    + unfold Linear2, Linear3. rewrite !length_map. exact Hlen.
Qed.

Lemma vadd_scale_1_zero (w : vec) : vadd (scale 1 w) (repeat 0 (length w)) = w.
Proof.
  unfold vadd, scale. induction w as [|x w IH]; simpl; [reflexivity|].
  rewrite IH. f_equal. lra.
Qed.

(** A caption of one word has nothing to attend over: whatever the
    parameters and the dropout draws, [TextSA.forward] on one sample of one
    word of width [d] gives the word weight 1 and returns [l2norm] of the
    word itself. *)
Theorem TextSA_single_word (d : nat) (tsa : TextSA) (word : vec) (raw_global : mat)
    (g : RNG) :
  (1 <= d)%nat -> TextSA_shape d tsa -> length word = d ->
  length raw_global = 1%nat -> rect d raw_global ->
  exists g',
    TextSA_weights tsa [[word]] raw_global g = inr ([[1]], g')
    /\ TextSA_forward tsa [[word]] raw_global g = inr ([l2norm word], g').
Proof.
  intros _ _ _ Hraw _.
  unfold TextSA_forward, TextSA_weights.
  edestruct (@SA_scores_total 1 (tsa_dropout_rate tsa) (tsa_dropout_rate tsa) (tsa_common tsa)
               (map (map (map tanh)) (Linear3 (tsa_local_fc tsa) [[word]]))
               (map (map tanh) (Linear2 (tsa_global_fc tsa) raw_global)) g)
    as (w & g' & E & Hl & Hs).
  - lia.
  - repeat constructor.
  - unfold Linear2. rewrite !length_map. exact Hraw.
  - assert (Ew : w = [[1]]).
    { simpl in Hl. destruct w as [|r [|r2 w]]; try discriminate.
      pose proof (Forall_inv Hs) as (Hr & _ & Hsum).
      destruct r as [|x [|y r]]; try discriminate.
      simpl in Hsum. repeat f_equal. lra. }
    subst w. exists g'. split; [exact E|].
    assert (Es : sum_rows (map2 scale [1] [word]) = word).
    { rewrite (@sum_rows_weighted_sum (length word) [1] [word]);
        [|discriminate|discriminate|repeat constructor].
      unfold weighted_sum. simpl. apply vadd_scale_1_zero. }
    rewrite (bind_inr _ E). unfold ret, SA_pool.
    change (map2 (fun w l => sum_rows (map2 scale w l)) [[1]] [[word]])
      with [sum_rows (map2 scale [1] [word])].
    now rewrite Es.
Qed.

(** ** Construction and the SGR container, beyond the accepted names *)

(** [EncoderSimilarity.__init__] succeeds exactly for the names ['SGR'] and
    ['SAF']: on success the name is stored, the attribute it selects is the
    one that is set ([SGR_module] with [sgr_step] sublayers, or
    [SAF_module]), and the alignment layers map [embed_size] to [sim_dim]
    features; otherwise the only outcome is the [ValueError]. *)
Theorem EncoderSimilarity_init_characterised (name mode : string)
    (embed_size sim_dim sgr_step : nat) :
  match EncoderSimilarity_init name embed_size sim_dim mode sgr_step with
  | inr self =>
      module_name self = mode
      /\ EncoderSimilarity_wf sim_dim self
      /\ match sim_module self with
         | SGR_module layers => mode = "SGR"%string /\ length layers = sgr_step
         | SAF_module _ => mode = "SAF"%string
         end
      /\ Linear_shape embed_size sim_dim (sim_tranloc_w self)
      /\ Linear_shape embed_size sim_dim (sim_tranglo_w self)
  | inl e =>
      mode <> "SGR"%string /\ mode <> "SAF"%string
      /\ e = ValueError "Invalid input of module_name"
  end.
Proof.
  destruct (EncoderSimilarity_init name embed_size sim_dim mode sgr_step) as [e|self] eqn:E.
  - unfold EncoderSimilarity_init in E.
    destruct (String.eqb_spec mode "SGR") as [->|H1]; [discriminate|].
    destruct (String.eqb_spec mode "SAF") as [->|H2]; [discriminate|].
    injection E as <-. now repeat split.
  - pose proof (EncoderSimilarity_init_wf _ _ _ _ _ E) as Hwf.
    destruct (String.eqb_spec mode "SGR") as [->|H1].
    + destruct (EncoderSimilarity_init_SGR E) as (Hname & _ & Hmod).
      unfold EncoderSimilarity_init in E. rewrite String.eqb_refl in E. injection E as E.
      split; [exact Hname|]. split; [exact Hwf|]. rewrite Hmod. split.
      * split; [reflexivity|]. now rewrite length_map, length_seq.
      * rewrite <- E. simpl. split; apply Linear_init_shape.
    + unfold EncoderSimilarity_init in E. apply String.eqb_neq in H1. rewrite H1 in E.
      destruct (String.eqb_spec mode "SAF") as [->|H2]; [|discriminate].
      injection E as <-.
      split; [reflexivity|]. split; [exact Hwf|]. simpl.
      split; [reflexivity|]. split; apply Linear_init_shape.
Qed.

Lemma node0_of_concat (sim_glo : mat) (sim_loc : tensor3) :
  (length sim_glo <= length sim_loc)%nat ->
  map (fun graph => nth 0 graph []) (concat1 [unsqueeze1 sim_glo; sim_loc]) = sim_glo.
Proof.
  unfold concat1, unsqueeze1. simpl. rewrite map2_map_l.
  revert sim_loc. induction sim_glo as [|v sim_glo IH]; intros [|l sim_loc] Hl;
    simpl in *; try lia; [reflexivity | reflexivity |].
  f_equal. apply IH. lia.
Qed.

(** With [sgr_step = 0] nothing reasons over the graph: the final
    similarity vector is the global alignment itself, and the local
    alignments have no part in the score. *)
Theorem SGR_without_steps_is_global_alignment (name : string) (embed_size sim_dim : nat)
    (self : EncoderSimilarity) (sim_glo : mat) (sim_loc : tensor3) :
  EncoderSimilarity_init name embed_size sim_dim "SGR" 0 = inr self ->
  (length sim_glo <= length sim_loc)%nat ->
  final_sim_vec self (concat1 [unsqueeze1 sim_glo; sim_loc]) = inr sim_glo.
Proof.
  intros E Hl. destruct (EncoderSimilarity_init_SGR E) as (Hname & _ & Hmod).
  simpl in Hmod. unfold final_sim_vec. rewrite Hname, Hmod.
  change (String.eqb "SGR" "SGR") with true. cbv iota.
  change (SGR_reason [] (concat1 [unsqueeze1 sim_glo; sim_loc]))
    with (@inr exn _ (concat1 [unsqueeze1 sim_glo; sim_loc])).
  cbv iota. now rewrite node0_of_concat.
Qed.

Lemma get_sublayer_missing {L} (s : Sequential L) name :
  ~ In name (map fst s) -> get_sublayer s name = inl (KeyError name).
Proof.
  induction s as [|[n l] s IH]; simpl; intros Hn; [reflexivity|].
  destruct (String.eqb_spec n name) as [->|_]; [exfalso; apply Hn; now left|].
  apply IH. intros Hin. apply Hn. now right.
Qed.

Lemma get_sublayer_present {L} (s : Sequential L) name :
  In name (map fst s) -> exists l, get_sublayer s name = inr l.
Proof.
  induction s as [|[n l] s IH]; simpl; intros Hin; [contradiction|].
  destruct (String.eqb_spec n name) as [->|Hne]; [now exists l|].
  apply IH. destruct Hin; [congruence | assumption].
Qed.

Lemma SGR_reason_missing (layers : Sequential GraphReasoning) (sim_emb : tensor3) i :
  (i < length layers)%nat ->
  (forall j, (j < i)%nat -> In (sgr_name j) (map fst layers)) ->
  ~ In (sgr_name i) (map fst layers) ->
  SGR_reason layers sim_emb = inl (KeyError (sgr_name i)).
Proof.
  intros Hi Hpre Hmiss. unfold SGR_reason.
  replace (seq 0 (length layers))
    with (seq 0 i ++ i :: seq (S i) (length layers - S i)).
  2: { replace (length layers) with (i + S (length layers - S i))%nat at 2 by lia.
       rewrite seq_app. reflexivity. }
  rewrite fold_left_app.
  assert (Hprefix : exists emb,
             fold_left (fun acc j =>
                          match acc with
                          | inl e => inl e
                          | inr emb =>
                              match get_sublayer layers (sgr_name j) with
                              | inl e => inl e
                              | inr l => inr (GraphReasoning_forward l emb)
                              end
                          end) (seq 0 i) (inr sim_emb) = inr emb).
  { clear Hi Hmiss. induction i as [|i IH]; [now exists sim_emb|].
    destruct IH as [emb IH]; [intros j Hj; apply Hpre; lia|].
    destruct (get_sublayer_present layers (sgr_name i)) as [l El]; [apply Hpre; lia|].
    rewrite seq_S, fold_left_app, IH. simpl. rewrite El. now eexists. }
  destruct Hprefix as [emb ->]. simpl. rewrite (get_sublayer_missing _ _ Hmiss).
  generalize (seq (S i) (length layers - S i)). intros rest.
  induction rest as [|j rest IH]; simpl; [reflexivity | exact IH].
Qed.

(** The loop of [forward] fetches the layers by the names [SGR_0],
    [SGR_1], ...: on a well-shaped batch and a model in SGR mode whose
    layers are well-shaped but whose container of [n] distinct names lacks
    [SGR_i], [i < n], while it holds every [SGR_j] with [j < i], the run
    gets as far as the lookup of the first caption and ends in
    [KeyError('SGR_i')]. *)
Theorem EncoderSimilarity_forward_missing_sublayer (embed_size sim_dim num_region : nat)
    (n_image n_caption max_len : nat) (self : EncoderSimilarity)
    (layers : Sequential GraphReasoning) (i : nat)
    (img_emb cap_emb : tensor3) (cap_lens : list nat) (g : RNG) :
  module_name self = "SGR"%string -> sim_module self = SGR_module layers ->
  (1 <= sim_dim)%nat ->
  VisualSA_shape embed_size num_region (v_global_w self) ->
  TextSA_shape embed_size (t_global_w self) ->
  Linear_shape embed_size sim_dim (sim_tranloc_w self) ->
  Linear_shape embed_size sim_dim (sim_tranglo_w self) ->
  Linear_shape sim_dim 1 (sim_eval_w self) ->
  Forall (GraphReasoning_shape sim_dim) (map snd layers) ->
  NoDup (map fst layers) ->
  similarity_batch embed_size num_region n_image n_caption max_len img_emb cap_emb cap_lens ->
  (i < length layers)%nat ->
  (forall j, (j < i)%nat -> In (sgr_name j) (map fst layers)) ->
  ~ In (sgr_name i) (map fst layers) ->
  EncoderSimilarity_forward self img_emb cap_emb cap_lens g = inl (KeyError (sgr_name i)).
Proof.
  intros Hname Hmod _ _ _ _ _ _ _ _ (_ & _ & _ & Hnc & _ & _ & [Hcapn _] & _) Hi Hpre Hmiss.
  assert (Hne : cap_emb <> []).
  { intros Ec. rewrite Ec in Hcapn. simpl in Hcapn. lia. }
  destruct (VisualSA_forward_total (v_global_w self) img_emb (map mean_rows img_emb) g)
    as (img_glo & g1 & E0 & Hglo); [apply length_map|].
  unfold EncoderSimilarity_forward. cbv zeta. rewrite (bind_inr _ E0).
  destruct cap_emb as [|c cap_emb']; [congruence|].
  change (length (c :: cap_emb')) with (S (length cap_emb')).
  change (seq 0 (S (length cap_emb'))) with (0%nat :: seq 1 (length cap_emb')).
  destruct (@caption_sim_emb_total self img_emb img_glo (c :: cap_emb') cap_lens 0%nat g1 Hglo)
    as (sim_emb & g2 & E1 & _).
  assert (Ecap : caption_sim self img_emb img_glo (c :: cap_emb') cap_lens 0%nat g1
                 = inl (KeyError (sgr_name i))).
  { unfold caption_sim, caption_sim_vec.
    apply bind_inl. rewrite (bind_inr _ E1).
    unfold lift, final_sim_vec. rewrite Hname, Hmod.
    change (String.eqb "SGR" "SGR") with true. cbv iota.
    now rewrite (@SGR_reason_missing layers sim_emb i Hi Hpre Hmiss). }
  apply bind_inl. simpl mapM. apply bind_inl. exact Ecap.
Qed.
(** ** The graph of a caption *)

Lemma In_map2 {A B C} (f : A -> B -> C) xs ys z :
  In z (map2 f xs ys) -> exists x y, In x xs /\ In y ys /\ z = f x y.
Proof.
  revert ys; induction xs as [|x xs IH]; intros [|y ys]; simpl; try contradiction.
  intros [<-|Hin].
  - exists x, y. auto.
  - destruct (IH ys Hin) as (x' & y' & Hx & Hy & E). exists x', y'. auto.
Qed.

Lemma In_concat_repeat1 {A} (x y : A) n : In y (concat (repeat [x] n)) -> y = x.
Proof. induction n; simpl; [contradiction|]. intros [E|H]; auto. Qed.

Lemma rect_firstn d n (m : mat) : rect d m -> rect d (firstn n m).
Proof.
  unfold rect. intros H. revert n.
  induction H as [|r m Hr _ IH]; intros [|n]; simpl; constructor; auto.
Qed.

Lemma concat1_cons (sim_glo : mat) (sim_loc : tensor3) :
  concat1 [unsqueeze1 sim_glo; sim_loc] = map2 cons sim_glo sim_loc.
Proof. unfold concat1, unsqueeze1. simpl. rewrite map2_map_l. reflexivity. Qed.

Lemma node0_of_cons (sim_glo : mat) (sim_loc : tensor3) :
  (length sim_glo <= length sim_loc)%nat ->
  map (fun graph => nth 0 graph []) (map2 cons sim_glo sim_loc) = sim_glo.
Proof.
  revert sim_loc. induction sim_glo as [|v sim_glo IH]; intros [|l sim_loc] Hl;
    simpl in *; try lia; [reflexivity | reflexivity |].
  f_equal. apply IH. lia.
Qed.

Lemma caption_words_shape embed_size n_caption max_len (cap_emb : tensor3) cap_lens i :
  tensor_shape n_caption max_len embed_size cap_emb ->
  length cap_lens = n_caption ->
  Forall (fun n_word => (1 <= n_word <= max_len)%nat) cap_lens ->
  (i < n_caption)%nat ->
  length (caption_words cap_emb cap_lens i) = nth i cap_lens 0%nat
  /\ (1 <= nth i cap_lens 0 <= max_len)%nat
  /\ caption_words cap_emb cap_lens i <> []
  /\ rect embed_size (caption_words cap_emb cap_lens i).
Proof.
  intros [Hn Hcap] Hl Hlens Hi.
  assert (Hw : (1 <= nth i cap_lens 0 <= max_len)%nat).
  { rewrite Forall_forall in Hlens. apply Hlens, nth_In. lia. }
  assert (Hc : length (nth i cap_emb []) = max_len /\ rect embed_size (nth i cap_emb [])).
  { rewrite Forall_forall in Hcap. apply Hcap, nth_In. lia. }
  destruct Hc as [Hc1 Hc2].
  assert (Hlen : length (caption_words cap_emb cap_lens i) = nth i cap_lens 0%nat).
  { unfold caption_words. rewrite length_firstn. lia. }
  split; [exact Hlen|]. split; [exact Hw|]. split.
  - intros E. rewrite E in Hlen. simpl in Hlen. lia.
  - unfold caption_words. now apply rect_firstn.
Qed.

(** Lines 236-253 on a well-shaped batch: the graph of every image is the
    global alignment followed by the local alignments, one per valid word
    of the caption, every node of width [sim_dim]. *)
Lemma caption_sim_emb_built (embed_size sim_dim num_region n_image n_caption max_len : nat)
    (self : EncoderSimilarity) (img_emb : tensor3) (img_glo : mat)
    (cap_emb : tensor3) (cap_lens : list nat) (i : nat) (g : RNG) :
  Linear_shape embed_size sim_dim (sim_tranloc_w self) ->
  Linear_shape embed_size sim_dim (sim_tranglo_w self) ->
  similarity_batch embed_size num_region n_image n_caption max_len img_emb cap_emb cap_lens ->
  length img_glo = n_image -> (i < n_caption)%nat ->
  exists (cap_glo_i : mat) (g' : RNG),
    TextSA_forward (t_global_w self) [caption_words cap_emb cap_lens i]
      [mean_rows (caption_words cap_emb cap_lens i)] g = inr (cap_glo_i, g')
    /\ length cap_glo_i = 1%nat
    /\ caption_sim_emb self img_emb img_glo cap_emb cap_lens i g
       = inr (map2 cons (global_alignment self img_glo cap_glo_i)
                        (local_alignment self img_emb (caption_words cap_emb cap_lens i)), g')
    /\ length (global_alignment self img_glo cap_glo_i) = n_image
    /\ rect sim_dim (global_alignment self img_glo cap_glo_i)
    /\ length (local_alignment self img_emb (caption_words cap_emb cap_lens i)) = n_image
    /\ Forall (fun nodes => length nodes = nth i cap_lens 0%nat /\ rect sim_dim nodes)
              (local_alignment self img_emb (caption_words cap_emb cap_lens i)).
Proof.
  intros Hloc Hglo_w (Hd & Hr & Hni & Hnc & Hml & [Himg_n Himg] & Hcap & Hlens_n & Hlens)
         Hglo Hi.
  destruct (caption_words_shape Hcap Hlens_n Hlens Hi) as (Hq_len & Hw & Hq_ne & Hq_rect).
  set (q := caption_words cap_emb cap_lens i) in *.
  destruct (TextSA_forward_total (t_global_w self) [q] [mean_rows q] g)
    as (cap_glo & g' & Et & Hcg); [reflexivity|].
  exists cap_glo, g'. split; [exact Et|]. split; [exact Hcg|].
  split.
  { unfold caption_sim_emb. cbv zeta.
    change (firstn (nth i cap_lens 0%nat) (nth i cap_emb [])) with q.
    change (map mean_rows [q]) with [mean_rows q].
    rewrite (bind_inr _ Et). unfold ret. rewrite concat1_cons. reflexivity. }
  split.
  { unfold global_alignment, subtract_bcast, Linear2. now rewrite !length_map. }
  split.
  { unfold global_alignment. apply rect_map_rows; [apply length_l2norm|].
    now apply rect_Linear2 with embed_size. }
  split.
  { unfold local_alignment, subtract3, SCAN_attention, Linear3.
    rewrite !length_map, !map2_length, length_concat_repeat1. lia. }
  apply Forall_forall. intros nodes Hin.
  unfold local_alignment in Hin. cbv zeta in Hin.
  apply in_map_iff in Hin as (m1 & <- & Hm1).
  unfold Linear3 in Hm1. apply in_map_iff in Hm1 as (m2 & <- & Hm2).
  apply in_map_iff in Hm2 as (m3 & <- & Hm3).
  unfold subtract3 in Hm3. apply In_map2 in Hm3 as (ctx & q' & Hctx & Hq' & ->).
  apply In_concat_repeat1 in Hq'. subst q'.
  unfold SCAN_attention in Hctx. apply In_map2 in Hctx as (q'' & c & Hq'' & Hc & ->).
  apply In_concat_repeat1 in Hq''. subst q''.
  rewrite Forall_forall in Himg. destruct (Himg c Hc) as [Hc_len Hc_rect].
  assert (Hc_ne : c <> []) by (intros E; rewrite E in Hc_len; simpl in Hc_len; lia).
  destruct (SCAN_attention1_shape 9 Hd Hq_ne Hq_rect Hc_ne Hc_rect) as [Hs1 _].
  split.
  - unfold Linear2. rewrite !length_map, map2_length, Hs1, Hq_len. lia.
  - apply rect_map_rows; [apply length_l2norm|]. now apply rect_Linear2 with embed_size.
Qed.

(** For a caption with [n_word] valid words, [forward] builds for every
    image a graph of exactly [1 + n_word] nodes of width [sim_dim]; node 0
    is the global alignment of the image with the caption, the nodes after
    it are the local alignments (lines 236-253). *)
Theorem caption_sim_emb_graph_shape (embed_size sim_dim num_region : nat)
    (n_image n_caption max_len : nat) (self : EncoderSimilarity)
    (img_emb : tensor3) (img_glo : mat) (cap_emb : tensor3) (cap_lens : list nat)
    (i : nat) (g : RNG) :
  (1 <= sim_dim)%nat ->
  EncoderSimilarity_shape embed_size sim_dim num_region self ->
  similarity_batch embed_size num_region n_image n_caption max_len img_emb cap_emb cap_lens ->
  length img_glo = n_image -> rect embed_size img_glo -> (i < n_caption)%nat ->
  exists (cap_glo_i : mat) (sim_emb : tensor3) (g' : RNG),
    TextSA_forward (t_global_w self) [caption_words cap_emb cap_lens i]
      [mean_rows (caption_words cap_emb cap_lens i)] g = inr (cap_glo_i, g')
    /\ caption_sim_emb self img_emb img_glo cap_emb cap_lens i g = inr (sim_emb, g')
    /\ length sim_emb = n_image
    /\ Forall (fun graph => length graph = S (nth i cap_lens 0%nat)
                            /\ rect sim_dim graph) sim_emb
    /\ map (fun graph => nth 0 graph []) sim_emb = global_alignment self img_glo cap_glo_i
    /\ map (fun graph => tl graph) sim_emb
       = local_alignment self img_emb (caption_words cap_emb cap_lens i).
Proof.
  intros _ (_ & _ & Hloc & Hglo_w & _) Hbatch Hglo _ Hi.
  destruct (@caption_sim_emb_built embed_size sim_dim num_region n_image n_caption max_len
              self img_emb img_glo cap_emb cap_lens i g Hloc Hglo_w Hbatch Hglo Hi)
    as (cap_glo & g' & Et & _ & E & Hgl & Hgr & Hll & Hlr).
  eexists cap_glo, _, g'. split; [exact Et|]. split; [exact E|].
  revert Hgl Hgr Hll Hlr.
  generalize (global_alignment self img_glo cap_glo).
  generalize (local_alignment self img_emb (caption_words cap_emb cap_lens i)).
  intros loc glo Hgl Hgr Hll Hlr.
  assert (Hlen : length glo = length loc) by congruence.
  split; [rewrite map2_length; lia|].
  split; [|split; [apply node0_of_cons; lia|]].
  - clear Hgl Hll. revert loc Hlen Hlr.
    induction Hgr as [|v glo Hv _ IH]; intros [|l loc] Hlen Hlr; simpl in *;
      try discriminate; constructor.
    + destruct (Forall_inv Hlr) as [H1 H2]. split; [simpl; now rewrite H1|].
      constructor; assumption.
    + apply IH; [now injection Hlen | exact (Forall_inv_tail Hlr)].
  - clear Hgl Hll Hgr Hlr. revert loc Hlen.
    induction glo as [|v glo IH]; intros [|l loc] Hlen; simpl in *; try discriminate;
      [reflexivity|]. f_equal. apply IH. now injection Hlen.
Qed.

(** C9: for a model that [__init__] builds in SGR mode and a well-shaped
    batch, the container holds exactly [sgr_step] layers; the graph that
    [forward] builds for caption [i] and every image is the global
    alignment followed by the local alignments, so its node 0 is the
    global alignment; and the final similarity vector of every image is
    node 0 of this graph after the [sgr_step] layers have been applied to
    it one after the other. *)
Theorem SGR_final_vector_is_node0 (name : string) (embed_size sim_dim sgr_step : nat)
    (n_image n_caption max_len : nat) (self : EncoderSimilarity)
    (img_emb : tensor3) (img_glo : mat) (cap_emb : tensor3) (cap_lens : list nat)
    (i : nat) (g : RNG) :
  EncoderSimilarity_init name embed_size sim_dim "SGR" sgr_step = inr self ->
  (1 <= sim_dim)%nat ->
  similarity_batch embed_size 36 n_image n_caption max_len img_emb cap_emb cap_lens ->
  length img_glo = n_image -> rect embed_size img_glo -> (i < n_caption)%nat ->
  exists (layers : list GraphReasoning) (cap_glo_i : mat) (sim_emb : tensor3) (g' : RNG),
    length layers = sgr_step
    /\ sim_module self = SGR_module (map2 pair (map sgr_name (seq 0 sgr_step)) layers)
    /\ TextSA_forward (t_global_w self) [caption_words cap_emb cap_lens i]
         [mean_rows (caption_words cap_emb cap_lens i)] g = inr (cap_glo_i, g')
    /\ sim_emb = map2 cons (global_alignment self img_glo cap_glo_i)
                           (local_alignment self img_emb (caption_words cap_emb cap_lens i))
    /\ caption_sim_emb self img_emb img_glo cap_emb cap_lens i g = inr (sim_emb, g')
    /\ length sim_emb = n_image
    /\ Forall (fun graph => length graph = S (nth i cap_lens 0%nat)) sim_emb
    /\ map (fun graph => nth 0 graph []) sim_emb = global_alignment self img_glo cap_glo_i
    /\ caption_sim_vec self img_emb img_glo cap_emb cap_lens i g
       = inr (map (fun graph => nth 0 graph [])
                  (fold_left (fun emb l => GraphReasoning_forward l emb) layers sim_emb), g').
Proof.
  intros E _ Hbatch Hglo _ Hi.
  destruct (EncoderSimilarity_init_SGR E) as (Hname & _ & Hmod).
  destruct (EncoderSimilarity_init_shape _ _ _ _ _ E) as (_ & _ & Hloc & Hglo_w & _).
  set (mk := fun i => GraphReasoning_init (name ++ ".SGR_module." ++ sgr_name i) sim_dim).
  change (sim_module self = SGR_module (map (fun i => (sgr_name i, mk i)) (seq 0 sgr_step)))
    in Hmod.
  assert (Hpairs : map (fun i => (sgr_name i, mk i)) (seq 0 sgr_step)
                   = map2 pair (map sgr_name (seq 0 sgr_step)) (map mk (seq 0 sgr_step))).
  { rewrite map2_map_map. reflexivity. }
  assert (Hfinal : forall sim_emb,
             final_sim_vec self sim_emb
             = inr (map (fun graph => nth 0 graph [])
                        (fold_left (fun emb l => GraphReasoning_forward l emb)
                                   (map mk (seq 0 sgr_step)) sim_emb))).
  { intros sim_emb. unfold final_sim_vec. rewrite Hname, Hmod.
    change (String.eqb "SGR" "SGR") with true. cbv iota.
    rewrite SGR_reason_fold.
    + now rewrite map_map.
    + unfold SGR_named. now rewrite map_map, length_map, length_seq. }
  destruct (@caption_sim_emb_built embed_size sim_dim 36 n_image n_caption max_len
              self img_emb img_glo cap_emb cap_lens i g Hloc Hglo_w Hbatch Hglo Hi)
    as (cap_glo & g' & Et & _ & Eemb & Hgl & _ & Hll & Hlr).
  eexists (map mk (seq 0 sgr_step)), cap_glo, _, g'.
  split; [now rewrite length_map, length_seq|].
  split; [now rewrite Hmod, Hpairs|].
  split; [exact Et|]. split; [reflexivity|]. split; [exact Eemb|].
  split; [rewrite map2_length; lia|].
  split.
  { revert Hgl Hll Hlr.
    generalize (global_alignment self img_glo cap_glo).
    generalize (local_alignment self img_emb (caption_words cap_emb cap_lens i)).
    intros loc glo Hgl Hll Hlr. clear Eemb. revert glo Hgl. rewrite <- Hll. clear Hll.
    induction Hlr as [|l loc [Hl _] _ IH]; intros [|v glo] Hgl; simpl in *;
      try discriminate; constructor.
    - simpl. now rewrite Hl.
    - apply IH. now injection Hgl. }
  split; [apply node0_of_cons; lia|].
  unfold caption_sim_vec. rewrite (bind_inr _ Eemb). unfold lift. now rewrite Hfinal.
Qed.

(** ** A constructed model runs *)

Lemma EncoderText_forward_total self captions lengths g :
  (forall x lens, length (et_cap_rnn self x lens) = length x) ->
  exists out g',
    EncoderText_forward self captions lengths g = inr (out, g')
    /\ length out = length captions.
Proof.
  intros Hrnn.
  destruct (Dropout3_total (4 / 10)
              (map (map (fun id => nth id (et_embed self) [])) captions) g)
    as (cap_emb & g' & E & Hshape).
  unfold EncoderText_forward. rewrite (bind_inr _ E). cbv zeta.
  eexists _, g'. split; [reflexivity|].
  pose proof (Forall2_length_eq Hshape) as Hl. rewrite length_map in Hl.
  destruct (et_image_norm self), (String.eqb (et_use_bi_gru self) "bidirectional");
    unfold average_halves; rewrite ?length_map, Hrnn; exact Hl.
Qed.

(** A model that [SGRAF.__init__] has built runs on every well-formed
    batch (as many images as captions, 36 regions of width [image_dim]
    per image, word ids below [vocab_size], valid lengths): [forward_emb]
    returns the two embeddings (one entry per image, one per caption) and
    passes the caption lengths on, [forward_sim] returns a square matrix
    of similarities, and [forward] returns the loss of that matrix. *)
Theorem SGRAF_constructed_forward_returns (mode : string)
    (sgr_step embed_size sim_dim vocab_size word_dim num_layers image_dim : nat)
    (margin : R) (max_violation use_bi_gru image_norm text_norm : bool)
    (batch_size max_len : nat) (self : SGRAF_model) (batch : Batch) (g : RNG) :
  GRU_contract ->
  SGRAF_init mode sgr_step embed_size sim_dim vocab_size word_dim num_layers image_dim
    margin max_violation use_bi_gru image_norm text_norm = inr self ->
  (1 <= embed_size)%nat -> (1 <= sim_dim)%nat -> (1 <= vocab_size)%nat ->
  (1 <= word_dim)%nat -> (1 <= num_layers)%nat -> (1 <= image_dim)%nat ->
  (1 <= batch_size)%nat ->
  tensor_shape batch_size 36 image_dim (image_feat batch) ->
  token_batch vocab_size batch_size max_len (text_token batch) (text_len batch) ->
  exists img_embs cap_embs sims g1 g',
    forward_emb self batch g = inr ((img_embs, cap_embs, text_len batch), g1)
    /\ length img_embs = batch_size
    /\ length cap_embs = batch_size
    /\ forward_sim self (img_embs, cap_embs, text_len batch) g1 = inr (sims, g')
    /\ length sims = batch_size /\ rect batch_size sims
    /\ SGRAF_forward self batch g = inr (criterion self sims, g').
Proof.
  intros Hgru Einit _ Hsim _ _ _ _ Hbs [Himg_n _] (_ & _ & Htok_n & _). unfold SGRAF_init in Einit.
  destruct (EncoderSimilarity_init "sim_enc" embed_size sim_dim mode sgr_step)
    as [e|enc] eqn:Eenc; [discriminate|].
  injection Einit as <-.
  pose proof (EncoderSimilarity_init_wf _ _ _ _ _ Eenc) as Hwf.
  set (self := {| img_enc := EncoderImage_init "img_enc" image_dim embed_size image_norm;
                  txt_enc := EncoderText_init "txt_enc" vocab_size word_dim embed_size
                               num_layers use_bi_gru text_norm;
                  sim_enc := enc;
                  criterion := ContrastiveLoss margin max_violation |}).
  set (img_embs := if image_norm
                   then map (map l2norm)
                            (Linear3 (Linear_init ("img_enc" ++ ".fc") image_dim embed_size)
                                     (image_feat batch))
                   else Linear3 (Linear_init ("img_enc" ++ ".fc") image_dim embed_size)
                                (image_feat batch)).
  assert (Eimg : forall g0, EncoderImage_forward (img_enc self) (image_feat batch) g0
                            = inr (img_embs, g0)) by reflexivity.
  assert (Himg : length img_embs = batch_size).
  { unfold img_embs, Linear3. destruct image_norm; now rewrite ?length_map. }
  destruct (EncoderText_forward_total (txt_enc self) (text_token batch) (text_len batch) g)
    as (cap_embs & g1 & Etxt & Hcap).
  { intros x lens. simpl.
    eapply Forall2_length_eq, (Hgru word_dim embed_size num_layers). }
  rewrite Htok_n in Hcap.
  destruct (@EncoderSimilarity_forward_entries sim_dim enc img_embs cap_embs
              (text_len batch) g1 Hsim Hwf)
    as (img_glo & g2 & vecs & sims & g' & _ & _ & Esim & Hlv & _ & Esims).
  { intros E. rewrite E in Hcap. simpl in Hcap. lia. }
  exists img_embs, cap_embs, sims, g1, g'.
  split; [|split; [exact Himg|split; [exact Hcap|split; [|split; [|split]]]]].
  - unfold forward_emb. cbv zeta. rewrite (bind_inr _ (Eimg g)), (bind_inr _ Etxt).
    reflexivity.
  - unfold forward_sim. change (sim_enc self) with enc. rewrite (bind_inr _ Esim).
    reflexivity.
  - rewrite Esims, length_map, length_seq. exact Himg.
  - rewrite Esims. unfold rect. apply Forall_map, Forall_forall. intros j _.
    rewrite length_map. congruence.
  - unfold SGRAF_forward. cbv zeta. rewrite (bind_inr _ (Eimg g)), (bind_inr _ Etxt).
    change (sim_enc self) with enc. rewrite (bind_inr _ Esim). reflexivity.
Qed.

(** ** Attention filtration *)

Lemma Rsum_abs_nonneg (v : vec) : 0 <= Rsum (map Rabs v).
Proof.
  induction v as [|x v IH]; simpl; [lra|]. fold (Rsum (map Rabs v)).
  pose proof (Rabs_pos x). lra.
Qed.

Lemma sigmoid_gates (r : vec) :
  length (l1norm (map sigmoid r)) = length r
  /\ Forall (fun x => 0 <= x) (l1norm (map sigmoid r)).
Proof using eps_pos.
  split; [unfold l1norm; now rewrite !length_map|].
  unfold l1norm. pose proof (Rsum_abs_nonneg (map sigmoid r)) as HS.
  apply Forall_map, Forall_map, Forall_forall. intros x _.
  destruct (sigmoid_unit_interval x) as [H0 _].
  apply Rmult_le_pos; [exact H0|]. apply Rlt_le, Rinv_0_lt_compat. lra.
Qed.

Lemma transpose_column (m : mat) :
  m <> [] -> rect 1 m -> transpose m = [map (fun row => nth 0 row 0) m].
Proof.
  intros Hne Hr. unfold transpose. now rewrite (ncols_rect Hne Hr).
Qed.

Lemma Forall2_flip {A B} (P : A -> B -> Prop) xs ys :
  Forall2 P xs ys -> Forall2 (fun y x => P x y) ys xs.
Proof. induction 1; constructor; auto. Qed.

Lemma map2_ext_Forall2 {A B C} (f h : A -> B -> C) xs ys :
  Forall2 (fun x y => f x y = h x y) xs ys -> map2 f xs ys = map2 h xs ys.
Proof. induction 1; simpl; f_equal; auto. Qed.

(** On graphs of at least one node of width [sim_dim] and a layer of the
    shape its constructor gives it, [AttentionFiltration.forward] gates
    every node of a graph with a weight that is not negative, one weight
    per node, and returns for every graph [l2norm] of the nodes combined
    with these weights: a filtered aggregate over all alignments. *)
Theorem AttentionFiltration_forward_gated (d : nat) (self : AttentionFiltration)
    (sim_emb : tensor3) :
  (1 <= d)%nat -> AttentionFiltration_shape d self ->
  Forall (fun g => g <> [] /\ rect d g) sim_emb ->
  Forall2 (fun g gates =>
             exists w, gates = [w] /\ length w = length g
                       /\ Forall (fun x => 0 <= x) w)
          sim_emb (AttentionFiltration_gates self sim_emb)
  /\ AttentionFiltration_forward self sim_emb
     = map2 (fun gates g => l2norm (weighted_sum (hd [] gates) g))
            (AttentionFiltration_gates self sim_emb) sim_emb.
Proof using eps_pos.
  intros Hd [Hs _] Hg.
  assert (Hgates : Forall2 (fun g gates =>
                              exists w, gates = [w] /\ length w = length g
                                        /\ Forall (fun x => 0 <= x) w)
                           sim_emb (AttentionFiltration_gates self sim_emb)).
  { unfold AttentionFiltration_gates, BatchNorm1D_forward3, transpose021, Linear3.
    cbv zeta. rewrite !map_map. apply Forall2_map_r.
    eapply Forall_impl; [|exact Hg]. intros g [Hne Hr]. simpl.
    rewrite (@transpose_column (Linear2 (attn_sim_w self) g)).
    - unfold mapi. simpl. eexists. split; [reflexivity|].
      match goal with
      | |- length (l1norm (map sigmoid ?r)) = _ /\ _ =>
          destruct (@sigmoid_gates r) as (H1 & H2)
      end.
      split; [|assumption].
      rewrite H1. unfold Linear2. now rewrite !length_map.
    - destruct g; [congruence|]. discriminate.
    - now apply rect_Linear2 with d. }
  split; [exact Hgates|].
  change (AttentionFiltration_forward self sim_emb)
    with (map (fun m => l2norm (hd [] m)) (bmm (AttentionFiltration_gates self sim_emb) sim_emb)).
  unfold bmm. rewrite map_map2. apply map2_ext_Forall2.
  apply Forall2_flip in Hgates.
  revert Hg. induction Hgates as [|gates g gs sim_emb' (w & -> & _) _ IH]; intros Hg;
    constructor.
  - destruct (Forall_inv Hg) as [_ Hr]. simpl.
    now rewrite (dot_transpose_weighted_sum w Hr).
  - apply IH. exact (Forall_inv_tail Hg).
Qed.
End SGRAF.

(** ** The statements on the small instances *)

Lemma ex_Linear_shape : Linear_shape 1 1 ex_Linear.
Proof. repeat split. repeat constructor. Qed.

Lemma ex_BatchNorm1D_shape : BatchNorm1D_shape 1 ex_BatchNorm1D.
Proof. repeat split. repeat constructor. simpl. lra. Qed.

Lemma ex_GraphReasoning_shape : GraphReasoning_shape 1 ex_GraphReasoning.
Proof. repeat split; repeat constructor. Qed.

Lemma ex_TextSA_shape : TextSA_shape 1 ex_TextSA.
Proof.
  unfold TextSA_shape, ex_TextSA. simpl.
  repeat split; try exact ex_Linear_shape; try apply ex_Linear_shape; lra.
Qed.

Lemma ex_VisualSA2_shape : VisualSA_shape 1 2 ex_VisualSA2.
Proof.
  unfold VisualSA_shape, ex_VisualSA2. simpl.
  split; [exact ex_Linear_shape|]. split.
  { repeat split. repeat constructor; lra. }
  split; [exact ex_Linear_shape|]. split; [exact ex_BatchNorm1D_shape|].
  split; [exact ex_Linear_shape | lra].
Qed.

Lemma ex_VisualSA36_shape : VisualSA_shape 1 36 ex_VisualSA36.
Proof.
  unfold VisualSA_shape, ex_VisualSA36. simpl vsa_local_fc. simpl vsa_local_bn.
  simpl vsa_global_fc. simpl vsa_global_bn. simpl vsa_common. simpl vsa_dropout_rate.
  split; [exact ex_Linear_shape|]. split.
  { apply (BatchNorm1D_init_shape 36). }
  split; [exact ex_Linear_shape|]. split; [exact ex_BatchNorm1D_shape|].
  split; [exact ex_Linear_shape | lra].
Qed.

Lemma ex_GRU_contract : GRU_contract ex_GRU.
Proof.
  intros input_size hidden_size num_layers direction x lens. unfold ex_GRU.
  induction x as [|xi x IH]; simpl; constructor; [|exact IH].
  split; [apply length_map|].
  unfold rect. apply Forall_map, Forall_forall. intros w _. apply repeat_length.
Qed.

Lemma ex_img_emb_shape : tensor_shape 2 36 1 ex_img_emb.
Proof.
  split; [reflexivity|]. unfold ex_img_emb, rect.
  repeat (apply Forall_cons || apply Forall_nil); split;
    try apply repeat_length; apply Forall_forall; intros r Hr;
    apply repeat_spec in Hr; now subst r.
Qed.

Lemma ex_similarity_batch : similarity_batch 1 36 2 2 2 ex_img_emb ex_cap_emb ex_cap_lens.
Proof.
  unfold similarity_batch.
  repeat (split; [lia|]). split; [exact ex_img_emb_shape|].
  split; [split; [reflexivity | repeat constructor]|].
  split; [reflexivity | repeat constructor].
Qed.

Lemma SCAN_attention_convex_normalized_witness :
  length (SCAN_attention 1 [[[1]; [2]]] [[[3]; [4]; [5]]] 9 (1 / 100000000)) = 1%nat
  /\ row_stochastic 3 (nth 0 (SCAN_weights 1 [[[1]; [2]]] [[[3]; [4]; [5]]] 9) []).
Proof.
  destruct (@SCAN_attention_convex_normalized 1 ltac:(lra) 1 [[[1]; [2]]] [[[3]; [4]; [5]]]
              9 (1 / 100000000))
    as [Hl Hb].
  - lia.
  - reflexivity.
  - repeat constructor; discriminate.
  - repeat constructor; discriminate.
  - split; [exact Hl|]. destruct (Hb 0%nat) as (_ & Hs & _); [simpl; lia | exact Hs].
Defined.

Lemma GraphReasoning_forward_row_stochastic_witness :
  Forall (Forall (Forall (fun x => 0 <= x)))
         (GraphReasoning_forward ex_GraphReasoning [[[1]; [2]]])
  /\ Forall2 (fun g e => length e = length g /\ row_stochastic (length g) e)
             [[[1]; [2]]] (GraphReasoning_edge ex_GraphReasoning [[[1]; [2]]]).
Proof.
  destruct (@GraphReasoning_forward_row_stochastic 1 ex_GraphReasoning [[[1]; [2]]])
    as (He & _ & Hpos).
  - lia.
  - repeat split; repeat constructor.
  - repeat constructor; discriminate.
  - split; assumption.
Defined.

Lemma EncoderSimilarity_init_rejects_witness :
  EncoderSimilarity_init (fun _ _ _ => 0) "sim_enc" 4 2 "AVE" 3
  = inl (ValueError "Invalid input of module_name")
  /\ SGRAF_init (fun _ _ _ => 0) ex_GRU (fun _ _ sims => Rsum (map Rsum sims))
       "AVE" 3 4 2 5 3 1 6 (2 / 10) true true true true
     = inl (ValueError "Invalid input of module_name")
  /\ EncoderSimilarity_init (fun _ _ _ => 0) "sim_enc" 4 2
       default_module_name default_sgr_step
     = inl (ValueError "Invalid input of module_name").
Proof.
  apply (@EncoderSimilarity_init_rejects (fun _ _ _ => 0) ex_GRU
           (fun _ _ sims => Rsum (map Rsum sims)) "sim_enc" "AVE"
           4 2 3 5 3 1 6 (2 / 10) true true true true);
    discriminate.
Defined.

Lemma eval_mode_deterministic_witness :
  outcome (SGRAF_forward 1 false ex_SGRAF ex_Batch ex_RNG)
  = outcome (SGRAF_forward 1 false ex_SGRAF ex_Batch {| tape := fun _ => false; pos := 7 |}).
Proof.
  apply (@eval_mode_deterministic 1 false ex_SGRAF ex_Batch ex_EncoderSimilarity
           [[[1]]] [[[1]]] [1%nat] ex_RNG {| tape := fun _ => false; pos := 7 |} eq_refl).
Defined.

Lemma SCAN_attention_shape_witness :
  Forall2 (fun q out => length out = length q /\ rect 1 out)
          [[[1]; [2]]] (SCAN_attention 1 [[[1]; [2]]] [[[3]; [4]; [5]]] 9 (1 / 100000000)).
Proof.
  apply (@SCAN_attention_shape 1 1 [[[1]; [2]]] [[[3]; [4]; [5]]] 9 (1 / 100000000)).
  - lia.
  - reflexivity.
  - repeat constructor; discriminate.
  - repeat constructor; discriminate.
Defined.

Lemma SGR_steps_keep_graph_shape_witness :
  Forall2 (fun g out => length out = length g /\ rect 1 out
                        /\ Forall (Forall (fun x => 0 <= x)) out)
          [[[1]; [2]]]
          (fold_left (fun emb l => GraphReasoning_forward l emb)
                     [ex_GraphReasoning; ex_GraphReasoning] [[[1]; [2]]]).
Proof.
  apply (@SGR_steps_keep_graph_shape 1 [ex_GraphReasoning; ex_GraphReasoning] [[[1]; [2]]]).
  - lia.
  - discriminate.
  - repeat constructor.
Defined.

Lemma GraphReasoning_propagate_in_range_witness :
  Forall (Forall (fun node => 1 <= nth 0 node 0 <= 2))
         (GraphReasoning_propagate ex_GraphReasoning [[[1]; [2]]]).
Proof.
  apply (@GraphReasoning_propagate_in_range 1 0 1 2 ex_GraphReasoning [[[1]; [2]]]).
  - lia.
  - exact ex_GraphReasoning_shape.
  - lia.
  - repeat constructor; discriminate.
  - repeat constructor; simpl; lra.
Defined.

Lemma SCAN_context_in_range_witness :
  Forall (fun row => 3 <= nth 0 row 0 <= 5)
         (SCAN_context1 1 [[1]; [2]] [[3]; [4]; [5]] 9).
Proof.
  apply (@SCAN_context_in_range 1 1 0 3 5 [[1]; [2]] [[3]; [4]; [5]] 9).
  - lia.
  - lia.
  - discriminate.
  - repeat constructor.
  - discriminate.
  - repeat constructor.
  - repeat constructor; simpl; lra.
Defined.

Lemma SGR_without_steps_is_global_alignment_witness :
  exists self,
    EncoderSimilarity_init (fun _ _ _ => 1) "sim_enc" 1 1 "SGR" 0 = inr self
    /\ final_sim_vec 1 true self (concat1 [unsqueeze1 [[1]]; [[[2]; [3]]]]) = inr [[1]].
Proof.
  eexists. split; [reflexivity|].
  apply (@SGR_without_steps_is_global_alignment 1 true (fun _ _ _ => 1) "sim_enc" 1 1 _
           [[1]] [[[2]; [3]]] eq_refl).
  simpl. lia.
Defined.


(** The float32 sigmoid is exactly 1 from a moderate argument on. *)
Lemma exp_100_large : 2 ^ 25 < exp 100.
Proof.
  assert (H10 : 11 < exp 10) by (pose proof (exp_ineq1 10); lra).
  assert (H20 : 121 < exp 20).
  { replace 20 with (10 + 10) by lra. rewrite exp_plus. nra. }
  assert (H40 : 14641 < exp 40).
  { replace 40 with (20 + 20) by lra. rewrite exp_plus. nra. }
  assert (H80 : 214358881 < exp 80).
  { replace 80 with (40 + 40) by lra. rewrite exp_plus. nra. }
  replace 100 with (80 + 20) by lra. rewrite exp_plus. nra.
Qed.

Lemma sigmoid_100 : sigmoid 100 = 1.
Proof.
  unfold sigmoid. apply fl32_saturates. unfold exact_sigmoid.
  pose proof exp_100_large as Hbig.
  assert (He : exp (- 100) = / exp 100) by apply exp_Ropp.
  assert (Hpos : 0 < exp (- 100)) by apply exp_pos.
  assert (Hsmall : exp (- 100) < / 2 ^ 25).
  { rewrite He. apply Rinv_lt_contravar; [|exact Hbig].
    apply Rmult_lt_0_compat; lra. }
  set (e := exp (- 100)) in *.
  assert (H25 : 0 < / 2 ^ 25) by (apply Rinv_0_lt_compat; lra).
  split.
  - apply (Rmult_lt_reg_r (1 + e)); [lra|].
    unfold Rdiv. rewrite Rmult_assoc, Rinv_l by lra. nra.
  - apply (Rmult_lt_reg_r (1 + e)); [lra|].
    unfold Rdiv. rewrite Rmult_assoc, Rinv_l by lra. lra.
Qed.

Lemma saturating_score (x : list R) :
  sigmoid (nth 0 (Linear_forward {| weight := [[0]]; bias := [100] |} x) 0) = 1.
Proof.
  replace (nth 0 (Linear_forward {| weight := [[0]]; bias := [100] |} x) 0) with 100;
    [exact sigmoid_100|].
  unfold Linear_forward, vadd, transpose, ncols, dot.
  cbn [weight bias hd length seq map map2 nth].
  destruct x as [|a [|a' x]]; cbn [map2 Rsum fold_right]; lra.
Qed.


Lemma SA_forward_weighted_normalized_witness :
  (exists w g',
      VisualSA_weights true ex_VisualSA2 [[[1]; [2]]; [[3]; [4]]] [[1]; [2]] ex_RNG
      = inr (w, g')
      /\ row_stochastic 2 w
      /\ VisualSA_forward 1 true ex_VisualSA2 [[[1]; [2]]; [[3]; [4]]] [[1]; [2]] ex_RNG
         = inr (map2 (fun w l => l2norm 1 (weighted_sum w l)) w [[[1]; [2]]; [[3]; [4]]], g'))
  /\ (exists w g',
      TextSA_weights true ex_TextSA [[[1]; [2]]; [[3]; [4]]] [[1]; [2]] ex_RNG = inr (w, g')
      /\ row_stochastic 2 w
      /\ TextSA_forward 1 true ex_TextSA [[[1]; [2]]; [[3]; [4]]] [[1]; [2]] ex_RNG
         = inr (map2 (fun w l => l2norm 1 (weighted_sum w l)) w [[[1]; [2]]; [[3]; [4]]], g')).
Proof.
  destruct (@SA_forward_weighted_normalized 1 ltac:(lra) true 2 2 1 ex_VisualSA2 ex_TextSA
              [[[1]; [2]]; [[3]; [4]]] [[1]; [2]] ex_RNG)
    as ((wv & gv & Ev & _ & Hv & Fv) & (wt & gt & Et & _ & Ht & Ft) & _).
  - lia.
  - lia.
  - lia.
  - exact ex_VisualSA2_shape.
  - exact ex_TextSA_shape.
  - split; [reflexivity | repeat constructor].
  - reflexivity.
  - repeat constructor.
  - split; [exists wv, gv | exists wt, gt]; repeat split; assumption.
Defined.

Lemma EncoderText_forward_embed_size_witness :
  exists out g',
    EncoderText_forward 1 true
      (EncoderText_init (fun _ _ _ => 1) ex_GRU "txt_enc" 3 2 4 1 true true)
      [[0%nat; 2%nat]; [1%nat; 0%nat]] [2%nat; 1%nat] ex_RNG = inr (out, g')
    /\ Forall2 (fun c o => length o = length c /\ rect 4 o)
               [[0%nat; 2%nat]; [1%nat; 0%nat]] out.
Proof.
  destruct (@EncoderText_forward_embed_size 1 true (fun _ _ _ => 1) ex_GRU "txt_enc"
              3 2 4 1 2 2 true true [[0%nat; 2%nat]; [1%nat; 0%nat]] [2%nat; 1%nat] ex_RNG)
    as (cap_emb & g' & _ & E & Hshape & _).
  - exact ex_GRU_contract.
  - lia.
  - lia.
  - lia.
  - lia.
  - unfold token_batch. repeat (split; [lia|]). split; [reflexivity|].
    split; [repeat constructor|]. split; [reflexivity | repeat constructor].
  - eexists _, g'. split; [exact E | exact Hshape].
Defined.

Lemma SGR_final_vector_is_node0_witness :
  exists self layers cap_glo_i sim_emb g',
    EncoderSimilarity_init (fun _ _ _ => 1) "sim_enc" 1 1 "SGR" 3 = inr self
    /\ length layers = 3%nat
    /\ caption_sim_emb (1 / 100000000) true self ex_img_emb [[1]; [2]] ex_cap_emb ex_cap_lens 1
         ex_RNG = inr (sim_emb, g')
    /\ map (fun graph => nth 0 graph []) sim_emb
       = global_alignment (1 / 100000000) self [[1]; [2]] cap_glo_i
    /\ caption_sim_vec (1 / 100000000) true self ex_img_emb [[1]; [2]] ex_cap_emb ex_cap_lens 1
         ex_RNG
       = inr (map (fun graph => nth 0 graph [])
                  (fold_left (fun emb l => GraphReasoning_forward l emb) layers sim_emb), g').
Proof.
  eexists.
  destruct (@SGR_final_vector_is_node0 (1 / 100000000) true (fun _ _ _ => 1) "sim_enc"
              1 1 3 2 2 2 _ ex_img_emb [[1]; [2]] ex_cap_emb ex_cap_lens 1 ex_RNG eq_refl)
    as (layers & cap_glo & sim_emb & g' & Hl & _ & _ & _ & Eemb & _ & _ & Hnode & Evec).
  - lia.
  - exact ex_similarity_batch.
  - reflexivity.
  - repeat constructor.
  - lia.
  - exists layers, cap_glo, sim_emb, g'. split; [reflexivity|]. repeat split; assumption.
Defined.

(** C7, the kink: with unit weights and the one-node graph [[1]] the
    score of the only entry is 1, so as a function of the output bias the
    entry is [relu (1 + b)], which is 0 at [b = -1] and has no derivative
    there. *)
Lemma ex_GraphReasoning_score : GraphReasoning_score ex_GraphReasoning [[[1]]] 0 0 0 = 1.
Proof.
  unfold GraphReasoning_score, GraphReasoning_propagate, GraphReasoning_edge, bmm,
    transpose021, Linear3, Linear2, Linear_forward, matmul, transpose, ncols, vadd, dot,
    softmax, ex_GraphReasoning, ex_Linear.
  cbn [graph_query_w graph_key_w sim_graph_w weight bias map map2 hd length seq nth
       fold_right Rsum].
  assert (H := exp_pos ((1 * 1 + 0 + 0) * (1 * 1 + 0 + 0) + 0)).
  field. lra.
Qed.



Lemma EncoderImage_forward_shape_witness :
  exists img_emb,
    EncoderImage_forward 1 (img_enc ex_SGRAF) ex_img_emb ex_RNG = inr (img_emb, ex_RNG)
    /\ tensor_shape 2 36 1 img_emb.
Proof.
  destruct (@EncoderImage_forward_shape 1 2 36 (img_enc ex_SGRAF) ex_img_emb ex_RNG)
    as (img_emb & E & Hs & _).
  - exact ex_Linear_shape.
  - simpl. lia.
  - simpl. lia.
  - lia.
  - lia.
  - exact ex_img_emb_shape.
  - exists img_emb. split; [exact E | exact Hs].
Defined.

Lemma SA_forward_shape_witness :
  (exists out g',
      VisualSA_forward 1 true ex_VisualSA2 [[[1]; [2]]; [[3]; [4]]] [[1]; [2]] ex_RNG
      = inr (out, g') /\ length out = 2%nat /\ rect 1 out)
  /\ (exists out g',
      TextSA_forward 1 true ex_TextSA [[[1]; [2]]; [[3]; [4]]] [[1]; [2]] ex_RNG
      = inr (out, g') /\ length out = 2%nat /\ rect 1 out).
Proof.
  apply (@SA_forward_shape 1 true 2 2 1 ex_VisualSA2 ex_TextSA
           [[[1]; [2]]; [[3]; [4]]] [[1]; [2]] ex_RNG).
  - lia.
  - lia.
  - lia.
  - exact ex_VisualSA2_shape.
  - exact ex_TextSA_shape.
  - split; [reflexivity | repeat constructor].
  - reflexivity.
  - repeat constructor.
Defined.

Lemma TextSA_single_word_witness :
  exists g',
    TextSA_weights true (TextSA_init (fun _ _ _ => 1) "t_global_w" 2 (4 / 10))
      [[[3; 4]]] [[3; 4]] ex_RNG = inr ([[1]], g')
    /\ TextSA_forward 1 true (TextSA_init (fun _ _ _ => 1) "t_global_w" 2 (4 / 10))
         [[[3; 4]]] [[3; 4]] ex_RNG = inr ([l2norm 1 [3; 4]], g').
Proof.
  apply (@TextSA_single_word 1 true 2 (TextSA_init (fun _ _ _ => 1) "t_global_w" 2 (4 / 10))
           [3; 4] [[3; 4]] ex_RNG).
  - lia.
  - apply TextSA_init_shape.
  - reflexivity.
  - reflexivity.
  - repeat constructor.
Defined.

Lemma EncoderSimilarity_forward_missing_sublayer_witness :
  EncoderSimilarity_forward 1 true ex_EncoderSimilarity_misnamed ex_img_emb ex_cap_emb
    ex_cap_lens ex_RNG
  = inl (KeyError "SGR_0").
Proof.
  apply (@EncoderSimilarity_forward_missing_sublayer 1 true 1 1 36 2 2 2
           ex_EncoderSimilarity_misnamed [("reasoning"%string, ex_GraphReasoning)] 0
           ex_img_emb ex_cap_emb ex_cap_lens ex_RNG).
  - reflexivity.
  - reflexivity.
  - lia.
  - exact ex_VisualSA36_shape.
  - exact ex_TextSA_shape.
  - exact ex_Linear_shape.
  - exact ex_Linear_shape.
  - exact ex_Linear_shape.
  - constructor; [exact ex_GraphReasoning_shape | constructor].
  - constructor; [intros [] | constructor].
  - exact ex_similarity_batch.
  - simpl. lia.
  - intros j Hj. lia.
  - simpl. intros [H|[]]. discriminate.
Defined.

Lemma caption_sim_emb_graph_shape_witness :
  exists self cap_glo_i sim_emb g',
    EncoderSimilarity_init (fun _ _ _ => 1) "sim_enc" 1 1 "SAF" 3 = inr self
    /\ caption_sim_emb (1 / 100000000) true self ex_img_emb [[1]; [2]] ex_cap_emb ex_cap_lens 0
         ex_RNG = inr (sim_emb, g')
    /\ length sim_emb = 2%nat
    /\ Forall (fun graph => length graph = 3%nat /\ rect 1 graph) sim_emb
    /\ map (fun graph => nth 0 graph []) sim_emb
       = global_alignment (1 / 100000000) self [[1]; [2]] cap_glo_i.
Proof.
  eexists.
  destruct (@caption_sim_emb_graph_shape (1 / 100000000) true 1 1 36 2 2 2 _
              ex_img_emb [[1]; [2]] ex_cap_emb ex_cap_lens 0 ex_RNG ltac:(lia)
              (EncoderSimilarity_init_shape (fun _ _ _ => 1) "sim_enc" 1 1 "SAF" 3 eq_refl)
              ex_similarity_batch)
    as (cap_glo & sim_emb & g' & _ & E & Hl & Hg & Hnode & _).
  - reflexivity.
  - repeat constructor.
  - lia.
  - exists cap_glo, sim_emb, g'. split; [reflexivity|]. repeat split; assumption.
Defined.

Lemma ex_Batch36_tokens : token_batch 2 2 2 (text_token ex_Batch36) (text_len ex_Batch36).
Proof.
  unfold token_batch. repeat (split; [lia|]). split; [reflexivity|].
  split; [repeat constructor|]. split; [reflexivity | repeat constructor].
Qed.

Lemma SGRAF_constructed_forward_returns_witness :
  exists self sims g',
    SGRAF_init (fun _ _ _ => 1) ex_GRU (fun _ _ sims => Rsum (map Rsum sims))
      "SAF" 3 1 1 2 1 1 1 (2 / 10) true true true true = inr self
    /\ SGRAF_forward 1 true self ex_Batch36 ex_RNG = inr (criterion self sims, g')
    /\ length sims = 2%nat /\ rect 2 sims.
Proof.
  eexists.
  destruct (@SGRAF_constructed_forward_returns 1 true (fun _ _ _ => 1) ex_GRU
              (fun _ _ sims => Rsum (map Rsum sims))
              "SAF" 3 1 1 2 1 1 1 (2 / 10) true true true true 2 2 _ ex_Batch36 ex_RNG
              ex_GRU_contract eq_refl)
    as (img & cap & sims & g1 & g' & _ & _ & _ & _ & Hl & Hr & E).
  - lia.
  - lia.
  - lia.
  - lia.
  - lia.
  - lia.
  - lia.
  - exact ex_img_emb_shape.
  - exact ex_Batch36_tokens.
  - exists sims, g'. split; [reflexivity|]. repeat split; assumption.
Defined.

Lemma AttentionFiltration_forward_gated_witness :
  Forall2 (fun g gates =>
             exists w, gates = [w] /\ length w = length g /\ Forall (fun x => 0 <= x) w)
          [[[1]; [2]]]
          (AttentionFiltration_gates 1 true
             {| attn_sim_w := ex_Linear; saf_bn := ex_BatchNorm1D |} [[[1]; [2]]]).
Proof.
  apply (@AttentionFiltration_forward_gated 1 ltac:(lra) true 1
           {| attn_sim_w := ex_Linear; saf_bn := ex_BatchNorm1D |} [[[1]; [2]]]).
  - lia.
  - split; [exact ex_Linear_shape | exact ex_BatchNorm1D_shape].
  - repeat constructor; discriminate.
Defined.
